(** * Playlistor: the conversion tasks of [main/tasks.py]

    A shallow embedding of the two Celery tasks
    [generate_spotify_playlist] (Apple Music to Spotify) and
    [generate_applemusic_playlist] (Spotify to Apple Music), followed by the
    properties of the matching loop, of batch submission, of the result cache
    and of the error paths.

    The tasks talk to many collaborators (the two service clients, the two
    parsers, the Django ORM, the cache, the progress recorder, the counter).
    Every call to a collaborator is recorded as an [Event]; what the
    collaborator answers is read from an environment [Env] of oracles.  The
    cache and the counter are explicit state ([World]).  Python exceptions are
    the [Raises] outcome of a computation; the effects made before an
    exception stay made. *)

From stdpp Require Import base gmap strings list.
From Stdlib Require Import ZArith Lia.

Open Scope string_scope.
Open Scope list_scope.
Open Scope nat_scope.

(** ** Data model *)

(** A track of the source playlist, as the parsers produce it
    ([track.id], [track.name], [track.artists]). *)
Module SourceTrack.
Record t := mk { id : string; name : string; artists : list string }.
End SourceTrack.

(** A row of the Django model [Track], as the tasks build it. *)
Module Track.
Record t := mk {
  name : string;
  artists : string;
  apple_music_id : string;
  spotify_id : string
}.
End Track.

(** A row of the Django model [Playlist], written by
    [Playlist.objects.create]. *)
Module Playlist.
Record t := mk {
  name : string;
  artwork_url : option string;
  spotify_url : string;
  applemusic_url : string;
  creator : string
}.
End Playlist.

(** The dictionary returned by [extract_data()]. *)
Record PlaylistData := mkData {
  playlist_title : string;
  tracks : list SourceTrack.t;
  playlist_creator : string;
  playlist_artwork_url : option string
}.

(** Values stored in the dictionaries the tasks return. *)
Inductive pyval :=
| PyNone
| PyStr (s : string)
| PyInt (n : nat)
| PyTracks (l : list SourceTrack.t).

(** A Python dict literal: keys in insertion order. *)
Definition pydict := list (string * pyval).

Fixpoint dict_get (d : pydict) (k : string) : option pyval :=
  match d with
  | [] => None
  | (k', v) :: d' => if String.eqb k' k then Some v else dict_get d' k
  end.

Definition dict_keys (d : pydict) : list string := map fst d.

(** ** Exceptions and outcomes *)

Inductive exn :=
| HTTPError (status_code : Z)        (* requests.exceptions.HTTPError *)
| SpotifyException (http_status : Z) (* spotipy.SpotifyException *)
| IntegrityError                     (* django.db.IntegrityError *)
| IndexError
| KeyError
| Exception (what : string).

(** What a task can raise: an ordinary exception, or the [Retry] that
    [self.retry(exc=e, countdown=c)] raises to ask Celery for a new run.
    Whether Celery grants the retry (its [max_retries] bookkeeping) happens
    outside the task body. *)
Inductive raised :=
| Exn (e : exn)
| Retry (exc : exn) (countdown : Z).

(** What a collaborator answers. *)
Inductive reply (A : Type) :=
| Ok (a : A)
| Err (e : exn).
Arguments Ok {A} a.
Arguments Err {A} e.

Inductive outcome (A : Type) :=
| Returns (a : A)
| Raises (r : raised).
Arguments Returns {A} a.
Arguments Raises {A} r.

(** ** Events: the calls made to collaborators *)

Inductive LogMsg :=
| GeneratingSpotify (url : string)
| GeneratingAppleMusic (url : string)
| MissedReport (missed n : nat) (missed_tracks : list SourceTrack.t).

Inductive Event :=
| LoggerInfo (msg : LogMsg)
| CacheContains (key : string)
| CacheGet (key : string)
| CacheSet (key value : string) (timeout : Z)
| GetSpotifyClient
| GetAppleMusicClient
| SpCurrentUser
| AppleMusicParse (url : string)
| SpotifyParse (url : string)
| SpSearch (query : string) (limit : nat)
| AmSearch (query : string) (limit : nat)
| SetProgress (current total : nat)
| SpUserPlaylistCreate (uid name description : string)
| SpPlaylistAddItems (playlist_id : string) (items : list string)
| AmUserPlaylistCreate (name description : string) (track_ids : list string)
| AmUserPlaylistAddTracks (playlist_id : string) (chunk : list string)
| PlaylistObjectsCreate (row : Playlist.t)
| BulkUpdateOrCreate (rows : list Track.t) (match_field : string)
| IncrPlaylistCounter.

(** ** The collaborators *)

Record Env := mkEnv {
  DEBUG : bool;                                   (* settings.DEBUG *)
  strip_qs : string -> string;                    (* utils.strip_qs *)
  get_spotify_client : reply unit;
  get_applemusic_client : reply unit;
  sp_current_user : reply string;                 (* sp.current_user()["id"] *)
  AppleMusicParser_extract_data : string -> reply PlaylistData;
  SpotifyParser_extract_data : string -> reply PlaylistData;
  (* sp.search(query, limit=1): the ids of results["tracks"]["items"] *)
  sp_search : string -> reply (list string);
  (* am.search(query, limit=1): the ids of ["results"]["songs"]["data"] *)
  am_search : string -> reply (list string);
  (* the new playlist's "id" and its external_urls["spotify"] *)
  sp_user_playlist_create : string -> string -> string -> reply (string * string);
  sp_playlist_add_items : string -> list string -> reply unit;
  (* playlist_data["data"][0]["id"], when the answer has it *)
  am_user_playlist_create : string -> string -> list string -> reply (option string);
  am_user_playlist_add_tracks : string -> list string -> reply unit;
  Playlist_objects_create : Playlist.t -> reply unit;
  Track_objects_bulk_update_or_create : list Track.t -> string -> reply unit
}.

(** ** State: the Django cache and the playlist counter

    A run is short against the cache timeout of an hour: it reads the clock
    once, and every cache operation of the run sees that reading. *)

Record World := mkWorld {
  cache : gmap string (string * Z);  (* key -> (value, expiry time) *)
  now : Z;                           (* the clock, in seconds *)
  playlist_counter : nat
}.

(** A computation reads and writes the world, records its events in the order
    they happen, and returns or raises. *)
Definition M (A : Type) : Type := World -> outcome A * World * list Event.

Definition ret {A} (a : A) : M A := fun w => (Returns a, w, []).

Definition raise {A} (r : raised) : M A := fun w => (Raises r, w, []).

Definition bind {A B} (m : M A) (f : A -> M B) : M B :=
  fun w =>
    match m w with
    | (Returns a, w1, ev1) =>
        match f a w1 with
        | (r, w2, ev2) => (r, w2, ev1 ++ ev2)
        end
    | (Raises r, w1, ev1) => (Raises r, w1, ev1)
    end.

Notation "'do' x <- m ; k" := (bind m (fun x => k))
  (at level 10, x name, m at level 100, k at level 200,
   format "'[v' 'do'  x  <-  m ; '/' k ']'").

(** A call to a collaborator: the event, then its answer. *)
Definition call {A} (ev : Event) (r : reply A) : M A :=
  fun w =>
    match r with
    | Ok a => (Returns a, w, [ev])
    | Err e => (Raises (Exn e), w, [ev])
    end.

(** [try: body  except ...: handler]; the handler decides what it catches. *)
Definition try_except {A} (body : M A) (handler : raised -> M A) : M A :=
  fun w =>
    match body w with
    | (Returns a, w1, ev1) => (Returns a, w1, ev1)
    | (Raises r, w1, ev1) =>
        match handler r w1 with
        | (r2, w2, ev2) => (r2, w2, ev1 ++ ev2)
        end
    end.

(** [try: body  finally: fin]. *)
Definition try_finally {A} (body : M A) (fin : M unit) : M A :=
  fun w =>
    match body w with
    | (r, w1, ev1) =>
        match fin w1 with
        | (Returns _, w2, ev2) => (r, w2, ev1 ++ ev2)
        | (Raises r2, w2, ev2) => (Raises r2, w2, ev1 ++ ev2)
        end
    end.

(** [for x in xs: body x]. *)
Fixpoint for_each {A} (xs : list A) (body : A -> M unit) : M unit :=
  match xs with
  | [] => ret tt
  | x :: xs' => do _ <- body x; for_each xs' body
  end.

Definition logger_info (msg : LogMsg) : M unit :=
  fun w => (Returns tt, w, [LoggerInfo msg]).

Definition set_progress (current total : nat) : M unit :=
  fun w => (Returns tt, w, [SetProgress current total]).

(** The entry of [key], if there is one and it has not expired. *)
Definition cache_live (w : World) (key : string) : option string :=
  match cache w !! key with
  | Some (v, expiry) => if (now w <? expiry)%Z then Some v else None
  | None => None
  end.

(** [key in cache] *)
Definition cache_contains (key : string) : M bool :=
  fun w => (Returns (bool_decide (is_Some (cache_live w key))), w,
            [CacheContains key]).

(** [cache.get(key)] *)
Definition cache_get (key : string) : M pyval :=
  fun w => (Returns (from_option PyStr PyNone (cache_live w key)), w,
            [CacheGet key]).

(** [cache.set(key, value, timeout=timeout)] *)
Definition cache_set (key value : string) (timeout : Z) : M unit :=
  fun w => (Returns tt,
            {| cache := <[key := (value, (now w + timeout)%Z)]> (cache w);
               now := now w;
               playlist_counter := playlist_counter w |},
            [CacheSet key value timeout]).

(** [counters.incr_playlist_counter()] *)
Definition incr_playlist_counter : M unit :=
  fun w => (Returns tt,
            {| cache := cache w; now := now w;
               playlist_counter := S (playlist_counter w) |},
            [IncrPlaylistCounter]).

(** [xs[i]], raising [IndexError] out of range. *)
Definition subscript {A} (xs : list A) (i : nat) : M A :=
  match xs !! i with
  | Some x => ret x
  | None => raise (Exn IndexError)
  end.

(** Modelled from the spec: [utils.grouper], which is imported by
    [tasks.py] but not part of the sources at hand.  The glossary defines
    chunking as "splitting a list of items into sub-lists no longer than a
    service-imposed maximum per API call": consecutive chunks of [n] items,
    the last one possibly shorter, and no empty chunk. *)
Fixpoint grouper_fuel {A} (fuel n : nat) (l : list A) : list (list A) :=
  match fuel with
  | 0 => []
  | S fuel' =>
      match take n l with
      | [] => []
      | chunk => chunk :: grouper_fuel fuel' n (drop n l)
      end
  end.

Definition grouper {A} (n : nat) (l : list A) : list (list A) :=
  grouper_fuel (length l) n l.

(** ** The tasks *)

Definition description : string :=
  "Made with Playlistor (https://playlistor.io) :)".

(** The three lists a task fills while it walks the source tracks.
    [track_ids] is called [track_uris] in [generate_spotify_playlist]. *)
Record Locals := mkLocals {
  track_ids : list string;
  tracks_to_save : list Track.t;
  missed_tracks : list SourceTrack.t
}.

Definition no_locals : Locals :=
  {| track_ids := []; tracks_to_save := []; missed_tracks := [] |}.

(** [missed_tracks.append(track)] *)
Definition append_missed (l : Locals) (track : SourceTrack.t) : Locals :=
  {| track_ids := track_ids l;
     tracks_to_save := tracks_to_save l;
     missed_tracks := missed_tracks l ++ [track] |}.

(** [track_ids.append(i); tracks_to_save.append(row)].  Nothing between or
    after the two appends can raise, so they are made together. *)
Definition append_matched (l : Locals) (i : string) (row : Track.t) : Locals :=
  {| track_ids := track_ids l ++ [i];
     tracks_to_save := tracks_to_save l ++ [row];
     missed_tracks := missed_tracks l |}.

(** The nested [save_or_update_tracks] of both tasks; they differ in
    [match_field] only. *)
Definition save_or_update_tracks (E : Env) (match_field : string)
    (rows : list Track.t) : M unit :=
  try_except
    (call (BulkUpdateOrCreate rows match_field)
          (Track_objects_bulk_update_or_create E rows match_field))
    (fun r => match r with
              | Exn IntegrityError => ret tt
              | _ => raise r
              end).

(** [if len(tracks_to_save) > 0: save_or_update_tracks(tracks_to_save)] *)
Definition save_if_any (E : Env) (match_field : string)
    (rows : list Track.t) : M unit :=
  if 0 <? length rows then save_or_update_tracks E match_field rows
  else ret tt.

(** *** Apple Music to Spotify *)

(** Line 71: the name, then at most two artists. *)
Definition spotify_query (track : SourceTrack.t) : string :=
  SourceTrack.name track +:+ " " +:+
  String.concat " "
    (if length (SourceTrack.artists track) <=? 2
     then SourceTrack.artists track
     else take 2 (SourceTrack.artists track)).

(** Lines 70-82: the body of the [try]. *)
Definition spotify_try (E : Env) (track : SourceTrack.t) (l : Locals)
    : M Locals :=
  let query := spotify_query track in
  do results <- call (SpSearch query 1) (sp_search E query);
  do track_id <- subscript results 0;
  ret (append_matched l ("spotify:track:" +:+ track_id)
         (Track.mk (SourceTrack.name track)
                   (String.concat "," (SourceTrack.artists track))
                   (SourceTrack.id track)
                   track_id)).

(** Lines 68-87: [for i, track in enumerate(tracks)], from index [i] on. *)
Fixpoint spotify_loop (E : Env) (n i : nat) (tracks : list SourceTrack.t)
    (l : Locals) : M Locals :=
  match tracks with
  | [] => ret l
  | track :: rest =>
      do l' <- try_finally
                 (try_except (spotify_try E track l)
                             (fun _ => ret (append_missed l track)))
                 (set_progress (i + 1) n);
      spotify_loop E n (S i) rest l'
  end.

(** Lines 88-100: create the playlist, then add the tracks. *)
Definition spotify_submit (E : Env) (uid playlist_title : string)
    (track_uris : list string) : M string :=
  do playlist <- call (SpUserPlaylistCreate uid playlist_title description)
                      (sp_user_playlist_create E uid playlist_title description);
  let playlist_id := playlist.1 in
  let playlist_url := playlist.2 in
  do _ <- (if 100 <? length track_uris then
             for_each (grouper 100 track_uris) (fun chunk =>
               call (SpPlaylistAddItems playlist_id chunk)
                    (sp_playlist_add_items E playlist_id chunk))
           else
             call (SpPlaylistAddItems playlist_id track_uris)
                  (sp_playlist_add_items E playlist_id track_uris));
  ret playlist_url.

(** Lines 88-120: what follows the loop. *)
Definition spotify_finish (E : Env) (url uid : string) (data : PlaylistData)
    (l : Locals) : M pydict :=
  let n := length (tracks data) in
  do playlist_url <- spotify_submit E uid (playlist_title data) (track_ids l);
  do _ <- (let row := Playlist.mk (playlist_title data)
                                   (playlist_artwork_url data)
                                   playlist_url url (playlist_creator data) in
           call (PlaylistObjectsCreate row) (Playlist_objects_create E row));
  do _ <- save_if_any E "spotify_id" (tracks_to_save l);
  do _ <- cache_set url playlist_url 3600;
  do _ <- incr_playlist_counter;
  do _ <- logger_info (MissedReport (length (missed_tracks l)) n
                                    (missed_tracks l));
  ret [("playlist_url", PyStr playlist_url);
       ("number_of_tracks", PyInt n);
       ("missed_tracks", PyTracks (missed_tracks l));
       ("source", PyStr "apple-music");
       ("destination", PyStr "spotify")].

(** Lines 56-120: the conversion proper, [url] already stripped. *)
Definition spotify_conversion (E : Env) (url : string) : M pydict :=
  do _ <- call GetSpotifyClient (get_spotify_client E);
  do uid <- call SpCurrentUser (sp_current_user E);
  do data <- call (AppleMusicParse url) (AppleMusicParser_extract_data E url);
  let n := length (tracks data) in
  do l <- spotify_loop E n 0 (tracks data) no_locals;
  spotify_finish E url uid data l.

(** The dictionary returned on a cache hit (lines 51-55). *)
Definition cached_result (playlist_url : pyval) : pydict :=
  [("playlist_url", playlist_url);
   ("destination", PyStr "spotify");
   ("source", PyStr "apple-music")].

(** Lines 36-120.  The early [return] of line 51 is the first branch. *)
Definition generate_spotify_playlist (E : Env) (url : string) : M pydict :=
  let url := strip_qs E url in
  do _ <- logger_info (GeneratingSpotify url);
  if negb (DEBUG E) then
    do hit <- cache_contains url;
    if hit : bool then
      do playlist_url <- cache_get url;
      ret (cached_result playlist_url)
    else spotify_conversion E url
  else spotify_conversion E url.

(** *** Spotify to Apple Music *)

(** Line 152: the name, then [track.artists[0]]. *)
Definition applemusic_query (track : SourceTrack.t) : M string :=
  do artist <- subscript (SourceTrack.artists track) 0;
  ret (SourceTrack.name track +:+ " " +:+ artist).

(** Lines 151-162: the body of the [try]. *)
Definition applemusic_try (E : Env) (track : SourceTrack.t) (l : Locals)
    : M Locals :=
  do query <- applemusic_query track;
  do data <- call (AmSearch query 1) (am_search E query);
  do song_id <- subscript data 0;
  ret (append_matched l song_id
         (Track.mk (SourceTrack.name track)
                   (String.concat "," (SourceTrack.artists track))
                   song_id
                   (SourceTrack.id track))).

(** Lines 149-167. *)
Fixpoint applemusic_loop (E : Env) (n i : nat) (tracks : list SourceTrack.t)
    (l : Locals) : M Locals :=
  match tracks with
  | [] => ret l
  | track :: rest =>
      do l' <- try_finally
                 (try_except (applemusic_try E track l)
                             (fun _ => ret (append_missed l track)))
                 (set_progress (i + 1) n);
      applemusic_loop E n (S i) rest l'
  end.

(** Lines 169-185: the body of the second [try]. *)
Definition applemusic_submit (E : Env) (playlist_title : string)
    (track_ids : list string) : M unit :=
  let N := 100 in
  if N <? length track_ids then
    do playlist_data <-
      call (AmUserPlaylistCreate playlist_title description (take N track_ids))
           (am_user_playlist_create E playlist_title description
              (take N track_ids));
    do playlist_id <- match playlist_data with
                      | Some i => ret i
                      | None => raise (Exn KeyError)
                      end;
    let track_ids := drop N track_ids in
    for_each (grouper N track_ids) (fun chunk =>
      call (AmUserPlaylistAddTracks playlist_id chunk)
           (am_user_playlist_add_tracks E playlist_id chunk))
  else
    do _ <- call (AmUserPlaylistCreate playlist_title description track_ids)
                 (am_user_playlist_create E playlist_title description
                    track_ids);
    ret tt.

(** Lines 187-194: the handler of the second [try]. *)
Definition applemusic_on_error (E : Env) (rows : list Track.t) (r : raised)
    : M unit :=
  match r with
  | Exn (HTTPError status_code) =>
      if (500 <=? status_code)%Z then
        do _ <- save_if_any E "apple_music_id" rows;
        raise (Retry (HTTPError status_code) 30)
      else raise r
  | _ => raise r
  end.

(** Lines 168-205: what follows the loop. *)
Definition applemusic_finish (E : Env) (playlist_title : string) (n : nat)
    (l : Locals) : M pydict :=
  do _ <- try_except (applemusic_submit E playlist_title (track_ids l))
                     (applemusic_on_error E (tracks_to_save l));
  do _ <- incr_playlist_counter;
  do _ <- save_if_any E "apple_music_id" (tracks_to_save l);
  do _ <- logger_info (MissedReport (length (missed_tracks l)) n
                                    (missed_tracks l));
  ret [("playlist_url", PyNone);
       ("number_of_tracks", PyInt n);
       ("missed_tracks", PyTracks (missed_tracks l));
       ("source", PyStr "spotify");
       ("destination", PyStr "apple-music")].

(** [data["playlist_title"] or "Untitled"] *)
Definition title_or_untitled (data : PlaylistData) : string :=
  if String.eqb (playlist_title data) "" then "Untitled"
  else playlist_title data.

(** Lines 124-205.  [token] is only stored on the client. *)
Definition generate_applemusic_playlist (E : Env) (url token : string)
    : M pydict :=
  let url := strip_qs E url in
  do _ <- logger_info (GeneratingAppleMusic url);
  do data <- call (SpotifyParse url) (SpotifyParser_extract_data E url);
  let playlist_title := title_or_untitled data in
  let n := length (tracks data) in
  do _ <- call GetAppleMusicClient (get_applemusic_client E);
  do l <- applemusic_loop E n 0 (tracks data) no_locals;
  applemusic_finish E playlist_title n l.

(** ** What the matching loops compute

    The loops never touch the world and never raise; what they append for a
    track depends on the track and on the search answer only.  The next
    definitions say it without the monad; [spotify_loop_run] and
    [applemusic_loop_run] below tie them to the loops. *)

Inductive MatchOutcome :=
| Matched (destination_id : string) (row : Track.t)
| Missed (source_track : SourceTrack.t).

Definition record (l : Locals) (o : MatchOutcome) : Locals :=
  match o with
  | Matched i row => append_matched l i row
  | Missed track => append_missed l track
  end.

Definition is_missed (o : MatchOutcome) : bool :=
  match o with Missed _ => true | Matched _ _ => false end.

Definition spotify_outcome (E : Env) (track : SourceTrack.t) : MatchOutcome :=
  match sp_search E (spotify_query track) with
  | Ok (track_id :: _) =>
      Matched ("spotify:track:" +:+ track_id)
              (Track.mk (SourceTrack.name track)
                        (String.concat "," (SourceTrack.artists track))
                        (SourceTrack.id track)
                        track_id)
  | _ => Missed track
  end.

Definition spotify_events (E : Env) (track : SourceTrack.t) : list Event :=
  [SpSearch (spotify_query track) 1].

Definition applemusic_outcome (E : Env) (track : SourceTrack.t)
    : MatchOutcome :=
  match SourceTrack.artists track with
  | [] => Missed track
  | artist :: _ =>
      match am_search E (SourceTrack.name track +:+ " " +:+ artist) with
      | Ok (song_id :: _) =>
          Matched song_id
                  (Track.mk (SourceTrack.name track)
                            (String.concat "," (SourceTrack.artists track))
                            song_id
                            (SourceTrack.id track))
      | _ => Missed track
      end
  end.

Definition applemusic_events (E : Env) (track : SourceTrack.t) : list Event :=
  match SourceTrack.artists track with
  | [] => []
  | artist :: _ => [AmSearch (SourceTrack.name track +:+ " " +:+ artist) 1]
  end.

(** The events of a loop over [tracks] that starts at index [i]: for each
    track its search, then its progress report. *)
Fixpoint loop_events (search : SourceTrack.t -> list Event) (n i : nat)
    (tracks : list SourceTrack.t) : list Event :=
  match tracks with
  | [] => []
  | track :: rest =>
      search track ++ SetProgress (i + 1) n :: loop_events search n (S i) rest
  end.

Definition is_progress (e : Event) : bool :=
  match e with SetProgress _ _ => true | _ => false end.

(** The report a [set_progress] call makes. *)
Definition progress_of (e : Event) : option (nat * nat) :=
  match e with SetProgress current total => Some (current, total) | _ => None end.

Definition is_search (e : Event) : bool :=
  match e with SpSearch _ _ | AmSearch _ _ => true | _ => false end.

(** ** Counting the calls of batch submission *)

Definition is_creation (e : Event) : bool :=
  match e with
  | SpUserPlaylistCreate _ _ _ | AmUserPlaylistCreate _ _ _ => true
  | _ => false
  end.

Definition is_append (e : Event) : bool :=
  match e with
  | SpPlaylistAddItems _ _ | AmUserPlaylistAddTracks _ _ => true
  | _ => false
  end.

(** The number of track ids a call carries. *)
Definition items_carried (e : Event) : nat :=
  match e with
  | SpPlaylistAddItems _ items => length items
  | AmUserPlaylistCreate _ _ track_ids => length track_ids
  | AmUserPlaylistAddTracks _ chunk => length chunk
  | _ => 0
  end.

(** [ceil(a / b)] *)
Definition ceil_div (a b : nat) : nat := (a + b - 1) / b.

(** Batch chunking as the specification words it, for a matched list of
    length [L] and a batch size [B]: [ceil(max(0, L-B)/B)] append calls, one
    creation call carrying [min(L, B)] items, no call above [B] items. *)
Definition chunked_as_specified (B L : nat) (evs : list Event) : Prop :=
  length (List.filter is_append evs) = ceil_div (L - B) B /\
  map items_carried (List.filter is_creation evs) = [L `min` B] /\
  Forall (fun e => items_carried e <= B) evs.

(** ** Other observations on a run *)

(** Events that change something outside the task: everything but the log
    line and the two cache reads. *)
Definition is_side_effect (e : Event) : bool :=
  match e with
  | LoggerInfo _ | CacheContains _ | CacheGet _ => false
  | _ => true
  end.

Definition is_mapping_write (e : Event) : bool :=
  match e with BulkUpdateOrCreate _ _ => true | _ => false end.

(** The world at a later time. *)
Definition at_time (t : Z) (w : World) : World :=
  {| cache := cache w; now := t; playlist_counter := playlist_counter w |}.

(** An environment whose mapping store answers as [answer] says. *)
Definition with_mapping_store (E : Env)
    (answer : list Track.t -> string -> reply unit) : Env :=
  {| DEBUG := DEBUG E;
     strip_qs := strip_qs E;
     get_spotify_client := get_spotify_client E;
     get_applemusic_client := get_applemusic_client E;
     sp_current_user := sp_current_user E;
     AppleMusicParser_extract_data := AppleMusicParser_extract_data E;
     SpotifyParser_extract_data := SpotifyParser_extract_data E;
     sp_search := sp_search E;
     am_search := am_search E;
     sp_user_playlist_create := sp_user_playlist_create E;
     sp_playlist_add_items := sp_playlist_add_items E;
     am_user_playlist_create := am_user_playlist_create E;
     am_user_playlist_add_tracks := am_user_playlist_add_tracks E;
     Playlist_objects_create := Playlist_objects_create E;
     Track_objects_bulk_update_or_create := answer |}.


(** ** Notions used by the statements *)

(** Every event of [m] satisfies [P], however [m] ends. *)
Definition emits {A} (P : Event -> Prop) (m : M A) : Prop :=
  forall w, Forall P (m w).2.

(** [m] leaves the world as it found it. *)
Definition frames {A} (m : M A) : Prop :=
  forall w, (m w).1.2 = w.

(** [m] never asks Celery for a retry. *)
Definition no_retry {A} (m : M A) : Prop :=
  forall w exc countdown, (m w).1.1 <> Raises (Retry exc countdown).

(** The three lists, read off a sequence of outcomes. *)
Definition matched_id (o : MatchOutcome) : option string :=
  match o with Matched i _ => Some i | Missed _ => None end.

Definition matched_row (o : MatchOutcome) : option Track.t :=
  match o with Matched _ row => Some row | Missed _ => None end.

Definition missed_track (o : MatchOutcome) : option SourceTrack.t :=
  match o with Matched _ _ => None | Missed track => Some track end.

(** The source tracks are split between the matched and the missed list:
    the counts add up, every match has its row, the missed list is the source
    list with the matched tracks left out, and the source ids are those of
    the rows together with those of the missed tracks. *)
Definition partitions (source_id : Track.t -> string)
    (tracks : list SourceTrack.t) (l : Locals) : Prop :=
  length (track_ids l) + length (missed_tracks l) = length tracks /\
  length (tracks_to_save l) = length (track_ids l) /\
  missed_tracks l `sublist_of` tracks /\
  map source_id (tracks_to_save l) `sublist_of` map SourceTrack.id tracks /\
  map SourceTrack.id tracks
    ≡ₚ map source_id (tracks_to_save l) ++ map SourceTrack.id (missed_tracks l).

(** The lists the Spotify loop leaves for the tracks of [data]. *)
Definition spotify_locals (E : Env) (data : PlaylistData) : Locals :=
  foldl record no_locals (map (spotify_outcome E) (tracks data)).

Definition applemusic_locals (E : Env) (data : PlaylistData) : Locals :=
  foldl record no_locals (map (applemusic_outcome E) (tracks data)).

(** No cache hit: the task is in debug mode, or the cache has no live entry
    for the stripped URL. *)
Definition cache_miss (E : Env) (url : string) (w : World) : Prop :=
  DEBUG E = true \/ cache_live w (strip_qs E url) = None.

(** The reports [(1, n), (2, n), ..., (n, n)]. *)
Definition reports_up_to (n : nat) : list (nat * nat) :=
  map (fun i => (i + 1, n)) (seq 0 n).



(** The result of a conversion that went through the loop. *)
Definition full_result (playlist_url : pyval) (n : nat)
    (missed : list SourceTrack.t) (source destination : string) : pydict :=
  [("playlist_url", playlist_url);
   ("number_of_tracks", PyInt n);
   ("missed_tracks", PyTracks missed);
   ("source", PyStr source);
   ("destination", PyStr destination)].

(** A call within the batch size of both services. *)
Definition within_batch (e : Event) : Prop := items_carried e <= 100.

(** The events of a cache hit: the log line and the two cache reads. *)
Definition cache_hit_events (key : string) : list Event :=
  [LoggerInfo (GeneratingSpotify key); CacheContains key; CacheGet key].

(** The events of [generate_applemusic_playlist] up to the end of its loop. *)
Definition applemusic_prefix (E : Env) (url : string) (data : PlaylistData)
    : list Event :=
  [LoggerInfo (GeneratingAppleMusic (strip_qs E url));
   SpotifyParse (strip_qs E url); GetAppleMusicClient] ++
  loop_events (applemusic_events E) (length (tracks data)) 0 (tracks data).

(** The write of the mapping rows, when there are any. *)
Definition mapping_write (match_field : string) (rows : list Track.t)
    : list Event :=
  if 0 <? length rows then [BulkUpdateOrCreate rows match_field] else [].

(** The mapping store takes the rows or reports an integrity conflict. *)
Definition store_takes_or_conflicts (E : Env) (match_field : string)
    (rows : list Track.t) : Prop :=
  Track_objects_bulk_update_or_create E rows match_field = Ok tt \/
  Track_objects_bulk_update_or_create E rows match_field = Err IntegrityError.

(** A run short-circuits on the cached URL [u]: it returns a result whose
    playlist URL is [u], and makes no search. *)
Definition replays_cache (u : string)
    (run : outcome pydict * World * list Event) : Prop :=
  (exists r, run.1.1 = Returns r /\
             dict_get r "playlist_url" = Some (PyStr u)) /\
  List.filter is_search run.2 = [].

(** ** A concrete playlist and concrete collaborators

    The example of the specification: "Song A" by three artists, "Song B" by
    one, and a track without artists; a production deployment in which every
    collaborator answers. *)

Definition song_a : SourceTrack.t :=
  SourceTrack.mk "id-a" "Song A" ["Artist1"; "Artist2"; "Artist3"].

Definition song_b : SourceTrack.t :=
  SourceTrack.mk "id-b" "Song B" ["Artist4"].

Definition song_c : SourceTrack.t :=
  SourceTrack.mk "id-c" "Song C" [].

Definition example_data : PlaylistData :=
  mkData "Mix" [song_a; song_b; song_c] "bob" None.

(** Cut a URL at its first question mark. *)
Fixpoint cut_query (url : string) : string :=
  match url with
  | EmptyString => EmptyString
  | String c rest =>
      if String.eqb (String c EmptyString) "?" then EmptyString
      else String c (cut_query rest)
  end.

Definition example_url : string := "https://music.example/playlist/1?x=1".

Definition example_playlist_url : string := "https://open.spotify.com/playlist/p1".

Definition example_env : Env := {|
  DEBUG := false;
  strip_qs := cut_query;
  get_spotify_client := Ok tt;
  get_applemusic_client := Ok tt;
  sp_current_user := Ok "me";
  AppleMusicParser_extract_data := fun _ => Ok example_data;
  SpotifyParser_extract_data := fun _ => Ok example_data;
  sp_search := fun query =>
    if String.eqb query "Song A Artist1 Artist2" then Ok ["a1"]
    else if String.eqb query "Song C " then Ok ["c1"]
    else Ok [];
  am_search := fun query =>
    if String.eqb query "Song A Artist1" then Ok ["a1"]
    else Err (Exception "search failed");
  sp_user_playlist_create := fun _ _ _ => Ok ("p1", example_playlist_url);
  sp_playlist_add_items := fun _ _ => Ok tt;
  am_user_playlist_create := fun _ _ _ => Ok (Some "p1");
  am_user_playlist_add_tracks := fun _ _ => Ok tt;
  Playlist_objects_create := fun _ => Ok tt;
  Track_objects_bulk_update_or_create := fun _ _ => Ok tt
|}.


(** A fresh deployment: nothing cached, no playlist counted. *)
Definition fresh_world : World :=
  {| cache := ∅; now := 0; playlist_counter := 0 |}.

(** The example deployment an hour's worth of cache later: the stripped
    example URL has an entry that expires at time 3600. *)
Definition cached_world : World :=
  {| cache := {[ cut_query example_url := (example_playlist_url, 3600%Z) ]};
     now := 0;
     playlist_counter := 1 |}.

(** The example deployment on a day the destination answers 503 to every
    call that adds tracks. *)
Definition failing_env : Env := {|
  DEBUG := false;
  strip_qs := cut_query;
  get_spotify_client := Ok tt;
  get_applemusic_client := Ok tt;
  sp_current_user := Ok "me";
  AppleMusicParser_extract_data := fun _ => Ok example_data;
  SpotifyParser_extract_data := fun _ => Ok example_data;
  sp_search := sp_search example_env;
  am_search := am_search example_env;
  sp_user_playlist_create := fun _ _ _ => Ok ("p1", example_playlist_url);
  sp_playlist_add_items := fun _ _ => Err (SpotifyException 503);
  am_user_playlist_create := fun _ _ _ => Err (HTTPError 503);
  am_user_playlist_add_tracks := fun _ _ => Err (HTTPError 503);
  Playlist_objects_create := fun _ => Ok tt;
  Track_objects_bulk_update_or_create := fun _ _ => Err IntegrityError
|}.

(** ** Notions used by the further properties *)

(** The world after one more playlist was counted. *)
Definition counted (w : World) : World :=
  {| cache := cache w; now := now w;
     playlist_counter := S (playlist_counter w) |}.

(** A computation that raises leaves the world as it found it. *)
Definition fails_clean {A} (m : M A) : Prop :=
  forall w r w' evs, m w = (Raises r, w', evs) -> w' = w.

Definition is_cache_event (e : Event) : bool :=
  match e with
  | CacheContains _ | CacheGet _ | CacheSet _ _ _ => true
  | _ => false
  end.

Definition is_cache_read (e : Event) : bool :=
  match e with CacheContains _ | CacheGet _ => true | _ => false end.

(** The example deployment with a mapping store that is down. *)
Definition broken_store_env : Env :=
  with_mapping_store example_env
    (fun _ _ => Err (Exception "database is down")).

(** The track ids a call carries, and all the ids a run has sent to the
    destination, in the order sent. *)
Definition items_of (e : Event) : list string :=
  match e with
  | SpPlaylistAddItems _ items => items
  | AmUserPlaylistCreate _ _ track_ids => track_ids
  | AmUserPlaylistAddTracks _ chunk => chunk
  | _ => []
  end.

Definition sent (evs : list Event) : list string :=
  concat (map items_of evs).

(** The number of mapping writes among the events. *)
Definition write_count (evs : list Event) : nat :=
  length (List.filter is_mapping_write evs).

(** A mapping write has rows, and matches on [match_field]. *)
Definition proper_write (match_field : string) (e : Event) : Prop :=
  match e with
  | BulkUpdateOrCreate rows field => rows <> [] /\ field = match_field
  | _ => True
  end.

(** An Apple Music creation call is named after the parsed playlist, or
    "Untitled" when that has no title, and carries the fixed description. *)
Definition proper_creation (E : Env) (url : string) (e : Event) : Prop :=
  match e with
  | AmUserPlaylistCreate name text _ =>
      name <> "" /\ text = description /\
      exists data,
        SpotifyParser_extract_data E (strip_qs E url) = Ok data /\
        name = title_or_untitled data
  | _ => True
  end.

(** The Spotify URI under which a mapping row was submitted. *)
Definition spotify_uri (row : Track.t) : string :=
  "spotify:track:" +:+ Track.spotify_id row.

(** The Apple Music search a track gives rise to, if it has an artist. *)
Definition applemusic_search_of (track : SourceTrack.t) : option Event :=
  match SourceTrack.artists track with
  | [] => None
  | first :: _ =>
      Some (AmSearch (SourceTrack.name track +:+ " " +:+ first) 1)
  end.

(** A playlist of 101 tracks that all match, and an Apple Music client whose
    answer to a playlist creation has no id. *)
Definition crowd_data : PlaylistData :=
  mkData "Crowd" (replicate 101 song_b) "bob" None.

Definition noid_env : Env := {|
  DEBUG := false;
  strip_qs := cut_query;
  get_spotify_client := Ok tt;
  get_applemusic_client := Ok tt;
  sp_current_user := Ok "me";
  AppleMusicParser_extract_data := fun _ => Ok crowd_data;
  SpotifyParser_extract_data := fun _ => Ok crowd_data;
  sp_search := fun _ => Ok ["b1"];
  am_search := fun _ => Ok ["b1"];
  sp_user_playlist_create := fun _ _ _ => Ok ("p1", example_playlist_url);
  sp_playlist_add_items := fun _ _ => Ok tt;
  am_user_playlist_create := fun _ _ _ => Ok None;
  am_user_playlist_add_tracks := fun _ _ => Ok tt;
  Playlist_objects_create := fun _ => Ok tt;
  Track_objects_bulk_update_or_create := fun _ _ => Ok tt
|}.

(** A computation makes at most [k] mapping writes, however it ends. *)
Definition writes_at_most {A} (k : nat) (m : M A) : Prop :=
  forall w, write_count (m w).2 <= k.

(** Tracks are added to the playlist that the creation call answered. *)
Definition adds_to_created_spotify (E : Env) (uid title : string) (e : Event)
    : Prop :=
  match e with
  | SpPlaylistAddItems playlist_id _ =>
      exists playlist_url,
        sp_user_playlist_create E uid title description
        = Ok (playlist_id, playlist_url)
  | _ => True
  end.

Definition adds_to_created_applemusic (E : Env) (title : string)
    (ids : list string) (e : Event) : Prop :=
  match e with
  | AmUserPlaylistAddTracks playlist_id _ =>
      100 < length ids /\
      am_user_playlist_create E title description (take 100 ids)
      = Ok (Some playlist_id)
  | _ => True
  end.

(** The example deployment in debug mode. *)
Definition debug_env : Env := {|
  DEBUG := true;
  strip_qs := cut_query;
  get_spotify_client := Ok tt;
  get_applemusic_client := Ok tt;
  sp_current_user := Ok "me";
  AppleMusicParser_extract_data := fun _ => Ok example_data;
  SpotifyParser_extract_data := fun _ => Ok example_data;
  sp_search := sp_search example_env;
  am_search := am_search example_env;
  sp_user_playlist_create := fun _ _ _ => Ok ("p2", "https://open.spotify.com/playlist/p2");
  sp_playlist_add_items := fun _ _ => Ok tt;
  am_user_playlist_create := fun _ _ _ => Ok (Some "p2");
  am_user_playlist_add_tracks := fun _ _ => Ok tt;
  Playlist_objects_create := fun _ => Ok tt;
  Track_objects_bulk_update_or_create := fun _ _ => Ok tt
|}.

(** A Spotify creation call is made for the current user, with the parsed
    title as it is and the fixed description. *)
Definition plain_creation (E : Env) (url : string) (e : Event) : Prop :=
  match e with
  | SpUserPlaylistCreate uid name text =>
      sp_current_user E = Ok uid /\ text = description /\
      exists data,
        AppleMusicParser_extract_data E (strip_qs E url) = Ok data /\
        name = playlist_title data
  | _ => True
  end.

Definition is_playlist_row (e : Event) : bool :=
  match e with PlaylistObjectsCreate _ => true | _ => false end.

(** The example deployment, for an Apple Music playlist without a title. *)
Definition untitled_data : PlaylistData := mkData "" [song_a] "bob" None.

Definition untitled_env : Env := {|
  DEBUG := false;
  strip_qs := cut_query;
  get_spotify_client := Ok tt;
  get_applemusic_client := Ok tt;
  sp_current_user := Ok "me";
  AppleMusicParser_extract_data := fun _ => Ok untitled_data;
  SpotifyParser_extract_data := fun _ => Ok untitled_data;
  sp_search := sp_search example_env;
  am_search := am_search example_env;
  sp_user_playlist_create := fun _ _ _ => Ok ("p1", example_playlist_url);
  sp_playlist_add_items := fun _ _ => Ok tt;
  am_user_playlist_create := fun _ _ _ => Ok (Some "p1");
  am_user_playlist_add_tracks := fun _ _ => Ok tt;
  Playlist_objects_create := fun _ => Ok tt;
  Track_objects_bulk_update_or_create := fun _ _ => Ok tt
|}.

(** The example deployment with parsers that cannot read the playlist. *)
Definition unreadable_env : Env := {|
  DEBUG := false;
  strip_qs := cut_query;
  get_spotify_client := Ok tt;
  get_applemusic_client := Ok tt;
  sp_current_user := Ok "me";
  AppleMusicParser_extract_data := fun _ => Err (Exception "no such playlist");
  SpotifyParser_extract_data := fun _ => Err (Exception "no such playlist");
  sp_search := sp_search example_env;
  am_search := am_search example_env;
  sp_user_playlist_create := fun _ _ _ => Ok ("p1", example_playlist_url);
  sp_playlist_add_items := fun _ _ => Ok tt;
  am_user_playlist_create := fun _ _ _ => Ok (Some "p1");
  am_user_playlist_add_tracks := fun _ _ => Ok tt;
  Playlist_objects_create := fun _ => Ok tt;
  Track_objects_bulk_update_or_create := fun _ _ => Ok tt
|}.

(** A computation makes at most [k] calls of the kind [p], however it
    ends. *)
Definition calls_at_most {A} (p : Event -> bool) (k : nat) (m : M A) : Prop :=
  forall w, length (List.filter p (m w).2) <= k.

(** The failing deployment with a mapping store that is down as well. *)
Definition failing_broken_env : Env :=
  with_mapping_store failing_env
    (fun _ _ => Err (Exception "database is down")).


(** The calls [generate_spotify_playlist] makes before [cache.set]: the
    calls of the task that are modelled as able to raise. *)
Definition is_call_before_cache_set (e : Event) : bool :=
  match e with
  | GetSpotifyClient | SpCurrentUser | AppleMusicParse _
  | SpUserPlaylistCreate _ _ _ | SpPlaylistAddItems _ _
  | PlaylistObjectsCreate _ | BulkUpdateOrCreate _ _ => true
  | _ => false
  end.

(** A computation that raises does so in a call of the kind [p], which is
    the last of its events. *)
Definition raises_in {A} (p : Event -> bool) (m : M A) : Prop :=
  forall w r w' evs,
    m w = (Raises r, w', evs) ->
    exists before e, evs = before ++ [e] /\ p e = true.

(** * Properties *)

(** ** Running computations *)

Lemma bind_returns {A B} (m : M A) (f : A -> M B) w a w1 ev1 :
  m w = (Returns a, w1, ev1) ->
  bind m f w = match f a w1 with (r, w2, ev2) => (r, w2, ev1 ++ ev2) end.
Proof. intros H. unfold bind. rewrite H. reflexivity. Qed.

Lemma call_ok {A} ev (r : reply A) a w :
  r = Ok a -> call ev r w = (Returns a, w, [ev]).
Proof. intros ->. reflexivity. Qed.

(** *** Loops over calls *)

Section ForEach.
Context {A : Type} (ev : A -> Event) (answer : A -> reply unit).

(** When it returns, every call was made. *)
Lemma for_each_returns (xs : list A) w u w' evs :
  for_each xs (fun x => call (ev x) (answer x)) w = (Returns u, w', evs) ->
  w' = w /\ evs = map ev xs.
Proof.
  revert evs. induction xs as [|x xs IH]; simpl; intros evs.
  - unfold ret. intros [= _ <- <-]. done.
  - unfold bind, call at 1. destruct (answer x) as [[]|e]; simpl.
    + destruct (for_each xs _ w) as [[r w2] ev2] eqn:Hrest.
      intros [= -> -> <-].
      destruct (IH ev2) as [-> ->]; [reflexivity | done].
    + intros [=].
Qed.

End ForEach.

(** *** [emits], [frames] and [no_retry] pass through every combinator *)

Section Combinators.
Context {A B : Type} (P : Event -> Prop).

Lemma emits_ret (a : A) : emits P (ret a).
Proof. intros w. constructor. Qed.

Lemma emits_raise r : emits P (@raise A r).
Proof. intros w. constructor. Qed.

Lemma emits_call ev (r : reply A) : P ev -> emits P (call ev r).
Proof. intros H w. destruct r; simpl; by repeat constructor. Qed.

Lemma emits_bind (m : M A) (f : A -> M B) :
  emits P m -> (forall a, emits P (f a)) -> emits P (bind m f).
Proof.
  intros Hm Hf w. unfold bind. specialize (Hm w).
  destruct (m w) as [[[a|r] w1] ev1]; simpl in *; [| assumption].
  specialize (Hf a w1). destruct (f a w1) as [[r2 w2] ev2]; simpl in *.
  by apply Forall_app.
Qed.

Lemma emits_try_except (m : M A) (h : raised -> M A) :
  emits P m -> (forall r, emits P (h r)) -> emits P (try_except m h).
Proof.
  intros Hm Hh w. unfold try_except. specialize (Hm w).
  destruct (m w) as [[[a|r] w1] ev1]; simpl in *; [assumption |].
  specialize (Hh r w1). destruct (h r w1) as [[r2 w2] ev2]; simpl in *.
  by apply Forall_app.
Qed.

Lemma frames_ret (a : A) : frames (ret a).
Proof. intros w. reflexivity. Qed.

Lemma frames_raise r : frames (@raise A r).
Proof. intros w. reflexivity. Qed.

Lemma frames_call ev (r : reply A) : frames (call ev r).
Proof. intros w. by destruct r. Qed.

Lemma frames_bind (m : M A) (f : A -> M B) :
  frames m -> (forall a, frames (f a)) -> frames (bind m f).
Proof.
  intros Hm Hf w. unfold bind. specialize (Hm w).
  destruct (m w) as [[[a|r] w1] ev1]; simpl in *; [| assumption].
  specialize (Hf a w1). destruct (f a w1) as [[r2 w2] ev2]; simpl in *.
  congruence.
Qed.

Lemma frames_try_except (m : M A) (h : raised -> M A) :
  frames m -> (forall r, frames (h r)) -> frames (try_except m h).
Proof.
  intros Hm Hh w. unfold try_except. specialize (Hm w).
  destruct (m w) as [[[a|r] w1] ev1]; simpl in *; [assumption |].
  specialize (Hh r w1). destruct (h r w1) as [[r2 w2] ev2]; simpl in *.
  congruence.
Qed.

Lemma no_retry_ret (a : A) : no_retry (ret a).
Proof. intros w exc countdown. discriminate. Qed.

Lemma no_retry_raise e : no_retry (@raise A (Exn e)).
Proof. intros w exc countdown. discriminate. Qed.

Lemma no_retry_call ev (r : reply A) : no_retry (call ev r).
Proof. intros w exc countdown. destruct r; discriminate. Qed.

Lemma no_retry_bind (m : M A) (f : A -> M B) :
  no_retry m -> (forall a, no_retry (f a)) -> no_retry (bind m f).
Proof.
  intros Hm Hf w exc countdown. unfold bind. specialize (Hm w exc countdown).
  destruct (m w) as [[[a|r] w1] ev1]; simpl in *; [| congruence].
  specialize (Hf a w1 exc countdown).
  by destruct (f a w1) as [[r2 w2] ev2].
Qed.

Lemma no_retry_try_except (m : M A) (h : raised -> M A) :
  no_retry m -> (forall e, no_retry (h (Exn e))) -> no_retry (try_except m h).
Proof.
  intros Hm Hh w exc countdown. unfold try_except.
  specialize (Hm w). destruct (m w) as [[[a|r] w1] ev1]; simpl in *;
    [discriminate |].
  destruct r as [e|exc' countdown']; [| by destruct (Hm exc' countdown')].
  specialize (Hh e w1 exc countdown).
  by destruct (h (Exn e) w1) as [[r2 w2] ev2].
Qed.

End Combinators.

Lemma emits_for_each {A} (P : Event -> Prop) (xs : list A) (body : A -> M unit) :
  (forall x, x ∈ xs -> emits P (body x)) -> emits P (for_each xs body).
Proof.
  induction xs as [|x xs IH]; simpl; intros Hbody.
  - apply emits_ret.
  - apply emits_bind.
    + apply Hbody. apply list_elem_of_here.
    + intros _. apply IH. intros y Hy. apply Hbody.
      by apply list_elem_of_further.
Qed.

Lemma frames_for_each {A} (xs : list A) (body : A -> M unit) :
  (forall x, frames (body x)) -> frames (for_each xs body).
Proof.
  intros Hbody. induction xs as [|x xs IH]; simpl.
  - apply frames_ret.
  - apply frames_bind; [apply Hbody | intros _; apply IH].
Qed.

Lemma no_retry_for_each {A} (xs : list A) (body : A -> M unit) :
  (forall x, no_retry (body x)) -> no_retry (for_each xs body).
Proof.
  intros Hbody. induction xs as [|x xs IH]; simpl.
  - apply no_retry_ret.
  - apply no_retry_bind; [apply Hbody | intros _; apply IH].
Qed.

Lemma emits_logger_info (P : Event -> Prop) msg :
  P (LoggerInfo msg) -> emits P (logger_info msg).
Proof. intros H w. by repeat constructor. Qed.

Lemma emits_cache_set (P : Event -> Prop) key value timeout :
  P (CacheSet key value timeout) -> emits P (cache_set key value timeout).
Proof. intros H w. by repeat constructor. Qed.

Lemma emits_incr_playlist_counter (P : Event -> Prop) :
  P IncrPlaylistCounter -> emits P incr_playlist_counter.
Proof. intros H w. by repeat constructor. Qed.

Lemma emits_cache_contains (P : Event -> Prop) key :
  P (CacheContains key) -> emits P (cache_contains key).
Proof. intros H w. by repeat constructor. Qed.

Lemma emits_cache_get (P : Event -> Prop) key :
  P (CacheGet key) -> emits P (cache_get key).
Proof. intros H w. by repeat constructor. Qed.

Lemma no_retry_logger_info msg : no_retry (logger_info msg).
Proof. intros w exc countdown. discriminate. Qed.

Lemma no_retry_cache_set key value timeout :
  no_retry (cache_set key value timeout).
Proof. intros w exc countdown. discriminate. Qed.

Lemma no_retry_incr_playlist_counter : no_retry incr_playlist_counter.
Proof. intros w exc countdown. discriminate. Qed.

(** Decompose a goal about a computation along its combinators; what is left
    are the side conditions on single events. *)
Ltac through_step :=
  lazymatch goal with
  | |- emits _ (ret _) => apply emits_ret
  | |- emits _ (raise _) => apply emits_raise
  | |- emits _ (call _ _) => apply emits_call
  | |- emits _ (logger_info _) => apply emits_logger_info
  | |- emits _ (cache_set _ _ _) => apply emits_cache_set
  | |- emits _ incr_playlist_counter => apply emits_incr_playlist_counter
  | |- emits _ (bind _ _) => apply emits_bind; [| intros ?]
  | |- emits _ (try_except _ _) => apply emits_try_except; [| intros ?]
  | |- emits _ (for_each _ _) => apply emits_for_each; intros ? ?
  | |- frames (ret _) => apply frames_ret
  | |- frames (raise _) => apply frames_raise
  | |- frames (call _ _) => apply frames_call
  | |- frames (bind _ _) => apply frames_bind; [| intros ?]
  | |- frames (try_except _ _) => apply frames_try_except; [| intros ?]
  | |- frames (for_each _ _) => apply frames_for_each; intros ?
  | |- no_retry (ret _) => apply no_retry_ret
  | |- no_retry (raise (Exn _)) => apply no_retry_raise
  | |- no_retry (call _ _) => apply no_retry_call
  | |- no_retry (logger_info _) => apply no_retry_logger_info
  | |- no_retry (cache_set _ _ _) => apply no_retry_cache_set
  | |- no_retry incr_playlist_counter => apply no_retry_incr_playlist_counter
  | |- no_retry (bind _ _) => apply no_retry_bind; [| intros ?]
  | |- no_retry (try_except _ _) => apply no_retry_try_except; [| intros ?]
  | |- no_retry (for_each _ _) => apply no_retry_for_each; intros ?
  | |- emits _ (cache_contains _) => apply emits_cache_contains
  | |- emits _ (cache_get _) => apply emits_cache_get
  | |- _ (if ?b then _ else _) => destruct b eqn:?
  | |- _ (match ?x with Some _ => _ | None => _ end) => destruct x
  | |- _ (let x := _ in _) => cbv zeta
  end.

Ltac through := repeat through_step.

Lemma emits_save_if_any (P : Event -> Prop) E match_field rows :
  P (BulkUpdateOrCreate rows match_field) ->
  emits P (save_if_any E match_field rows).
Proof.
  intros H. unfold save_if_any, save_or_update_tracks.
  through; [assumption |]. destruct r as [[]|]; through.
Qed.

Lemma frames_save_if_any E match_field rows :
  frames (save_if_any E match_field rows).
Proof.
  unfold save_if_any, save_or_update_tracks. through.
  destruct r as [[]|]; through.
Qed.

Lemma no_retry_save_if_any E match_field rows :
  no_retry (save_if_any E match_field rows).
Proof.
  unfold save_if_any, save_or_update_tracks. through.
  destruct e; through.
Qed.

(** *** The matching loops *)

Lemma spotify_step_run E n i track l w :
  try_finally
    (try_except (spotify_try E track l) (fun _ => ret (append_missed l track)))
    (set_progress (i + 1) n) w
  = (Returns (record l (spotify_outcome E track)), w,
     spotify_events E track ++ [SetProgress (i + 1) n]).
Proof.
  unfold try_finally, try_except, spotify_try, spotify_outcome, spotify_events,
    bind, call, subscript.
  destruct (sp_search E (spotify_query track)) as [[|track_id items]|e];
    reflexivity.
Qed.

Lemma applemusic_step_run E n i track l w :
  try_finally
    (try_except (applemusic_try E track l)
                (fun _ => ret (append_missed l track)))
    (set_progress (i + 1) n) w
  = (Returns (record l (applemusic_outcome E track)), w,
     applemusic_events E track ++ [SetProgress (i + 1) n]).
Proof.
  unfold try_finally, try_except, applemusic_try, applemusic_query,
    applemusic_outcome, applemusic_events, bind, call, subscript.
  destruct (SourceTrack.artists track) as [|artist others]; [reflexivity |].
  simpl.
  destruct (am_search E _) as [[|song_id data]|e]; reflexivity.
Qed.

Lemma spotify_loop_run E n tracks : forall i l w,
  spotify_loop E n i tracks l w
  = (Returns (foldl record l (map (spotify_outcome E) tracks)), w,
     loop_events (spotify_events E) n i tracks).
Proof.
  induction tracks as [|track rest IH]; intros i l w; [reflexivity |].
  simpl. erewrite bind_returns by apply spotify_step_run.
  rewrite IH. by rewrite <- app_assoc.
Qed.

Lemma applemusic_loop_run E n tracks : forall i l w,
  applemusic_loop E n i tracks l w
  = (Returns (foldl record l (map (applemusic_outcome E) tracks)), w,
     loop_events (applemusic_events E) n i tracks).
Proof.
  induction tracks as [|track rest IH]; intros i l w; [reflexivity |].
  simpl. erewrite bind_returns by apply applemusic_step_run.
  rewrite IH. by rewrite <- app_assoc.
Qed.

(** *** What the three lists hold after a loop *)

Lemma foldl_record (os : list MatchOutcome) : forall l,
  track_ids (foldl record l os) = track_ids l ++ omap matched_id os /\
  tracks_to_save (foldl record l os) = tracks_to_save l ++ omap matched_row os /\
  missed_tracks (foldl record l os) = missed_tracks l ++ omap missed_track os.
Proof.
  induction os as [|o os IH]; intros l; csimpl.
  - by rewrite !app_nil_r.
  - destruct (IH (record l o)) as (-> & -> & ->).
    destruct o; csimpl; by rewrite <- !app_assoc.
Qed.

Lemma omap_matched_lengths (os : list MatchOutcome) :
  length (omap matched_row os) = length (omap matched_id os) /\
  length (omap matched_id os) + length (omap missed_track os) = length os.
Proof.
  induction os as [|[i row|track] os [IH1 IH2]]; csimpl; split; lia.
Qed.

Section Partition.
Variable outcome_of : SourceTrack.t -> MatchOutcome.
Variable source_id : Track.t -> string.
Hypothesis missed_is_track : forall track track',
  outcome_of track = Missed track' -> track' = track.
Hypothesis row_keeps_id : forall track i row,
  outcome_of track = Matched i row -> source_id row = SourceTrack.id track.

Lemma missed_is_filter (tracks : list SourceTrack.t) :
  omap missed_track (map outcome_of tracks)
  = filter (fun track => is_missed (outcome_of track) = true) tracks.
Proof.
  induction tracks as [|track tracks IH]; [reflexivity |].
  csimpl. rewrite filter_cons.
  destruct (outcome_of track) as [i row|track'] eqn:Ho; csimpl.
  - exact IH.
  - rewrite (missed_is_track _ _ Ho). by f_equal.
Qed.

Lemma rows_sublist (tracks : list SourceTrack.t) :
  map source_id (omap matched_row (map outcome_of tracks))
    `sublist_of` map SourceTrack.id tracks.
Proof.
  induction tracks as [|track tracks IH]; [constructor |].
  csimpl. destruct (outcome_of track) as [i row|track'] eqn:Ho; csimpl.
  - rewrite (row_keeps_id _ _ _ Ho). by apply sublist_skip.
  - by apply sublist_cons.
Qed.

Lemma ids_permutation (tracks : list SourceTrack.t) :
  map SourceTrack.id tracks
  ≡ₚ map source_id (omap matched_row (map outcome_of tracks))
     ++ map SourceTrack.id (omap missed_track (map outcome_of tracks)).
Proof.
  induction tracks as [|track tracks IH]; [reflexivity |].
  csimpl. destruct (outcome_of track) as [i row|track'] eqn:Ho; csimpl.
  - rewrite (row_keeps_id _ _ _ Ho). by constructor.
  - rewrite (missed_is_track _ _ Ho).
    rewrite <- Permutation_middle. by constructor.
Qed.

Lemma foldl_partitions (tracks : list SourceTrack.t) :
  partitions source_id tracks
    (foldl record no_locals (map outcome_of tracks)).
Proof.
  destruct (foldl_record (map outcome_of tracks) no_locals)
    as (Hids & Hrows & Hmissed).
  destruct (omap_matched_lengths (map outcome_of tracks)) as [Hlen1 Hlen2].
  unfold partitions. rewrite Hids, Hrows, Hmissed. csimpl.
  rewrite length_map in Hlen2.
  repeat split; try assumption.
  - rewrite missed_is_filter. apply sublist_filter.
  - apply rows_sublist.
  - apply ids_permutation.
Qed.
End Partition.

Lemma spotify_missed_is_track E track track' :
  spotify_outcome E track = Missed track' -> track' = track.
Proof.
  unfold spotify_outcome.
  destruct (sp_search E _) as [[|? ?]|?]; congruence.
Qed.

Lemma spotify_row_keeps_id E track i row :
  spotify_outcome E track = Matched i row ->
  Track.apple_music_id row = SourceTrack.id track.
Proof.
  unfold spotify_outcome.
  destruct (sp_search E _) as [[|? ?]|?]; intros [= <- <-] || intros [=].
  reflexivity.
Qed.

Lemma applemusic_missed_is_track E track track' :
  applemusic_outcome E track = Missed track' -> track' = track.
Proof.
  unfold applemusic_outcome.
  destruct (SourceTrack.artists track); [congruence |].
  destruct (am_search E _) as [[|? ?]|?]; congruence.
Qed.

Lemma applemusic_row_keeps_id E track i row :
  applemusic_outcome E track = Matched i row ->
  Track.spotify_id row = SourceTrack.id track.
Proof.
  unfold applemusic_outcome.
  destruct (SourceTrack.artists track); [intros [=] |].
  destruct (am_search E _) as [[|? ?]|?]; intros [= <- <-] || intros [=].
  reflexivity.
Qed.

(** ** The claims *)

(** C1. Each source track has exactly one outcome: in either direction the
    matching loop over [n] tracks returns, leaves as many matched ids as
    mapping rows, the matched ids and the missed tracks together are [n], and
    the missed tracks are the source tracks that did not match, in their
    input order. *)
Theorem C1_one_outcome_per_track (E : Env) (tracks : list SourceTrack.t)
    (w : World) :
  (exists l evs,
     spotify_loop E (length tracks) 0 tracks no_locals w = (Returns l, w, evs)
     /\ partitions Track.apple_music_id tracks l) /\
  (exists l evs,
     applemusic_loop E (length tracks) 0 tracks no_locals w
       = (Returns l, w, evs)
     /\ partitions Track.spotify_id tracks l).
Proof.
  split; eexists _, _; split.
  - apply spotify_loop_run.
  - apply foldl_partitions.
    + apply spotify_missed_is_track.
    + apply spotify_row_keeps_id.
  - apply applemusic_loop_run.
  - apply foldl_partitions.
    + apply applemusic_missed_is_track.
    + apply applemusic_row_keeps_id.
Qed.

(** C7. The search query is the track's name followed by a bounded artist
    subset: the query sent to Spotify carries the first two artists at most,
    the query sent to Apple Music carries the first artist and no other (and
    no query is sent for a track without artists). *)
Theorem C7_bounded_artist_subset (E : Env) (track : SourceTrack.t)
    (l : Locals) (w : World) :
  (spotify_try E track l w).2
  = [SpSearch (SourceTrack.name track +:+ " " +:+
               String.concat " " (take 2 (SourceTrack.artists track))) 1] /\
  length (take 2 (SourceTrack.artists track)) <= 2 /\
  (applemusic_try E track l w).2
  = match SourceTrack.artists track with
    | first :: _ => [AmSearch (SourceTrack.name track +:+ " " +:+ first) 1]
    | [] => []
    end.
Proof.
  split; [| split].
  - unfold spotify_try, spotify_query, bind, call, subscript.
    assert (Hsubset :
      (if length (SourceTrack.artists track) <=? 2
       then SourceTrack.artists track
       else take 2 (SourceTrack.artists track))
      = take 2 (SourceTrack.artists track)).
    { destruct (Nat.leb_spec (length (SourceTrack.artists track)) 2);
        [by rewrite take_ge | reflexivity]. }
    rewrite Hsubset.
    destruct (sp_search E _) as [[|track_id items]|e]; reflexivity.
  - rewrite length_take. lia.
  - unfold applemusic_try, applemusic_query, bind, call, subscript.
    destruct (SourceTrack.artists track) as [|first others]; [reflexivity |].
    simpl. destruct (am_search E _) as [[|song_id data]|e]; reflexivity.
Qed.

(** *** Progress reports *)

Lemma progress_of_loop_events search n tracks :
  (forall track, omap progress_of (search track) = []) ->
  forall i,
    omap progress_of (loop_events search n i tracks)
    = map (fun k => (k + 1, n)) (seq i (length tracks)).
Proof.
  intros Hsearch. induction tracks as [|track rest IH]; intros i;
    [reflexivity |].
  simpl loop_events. rewrite omap_app, Hsearch. csimpl. by rewrite IH.
Qed.

Lemma no_progress_reports (evs : list Event) :
  Forall (fun e => progress_of e = None) evs -> omap progress_of evs = [].
Proof.
  induction 1 as [|e evs He _ IH]; [reflexivity |].
  csimpl. by rewrite He.
Qed.

Lemma spotify_finish_no_progress E url uid data l :
  emits (fun e => progress_of e = None) (spotify_finish E url uid data l).
Proof.
  unfold spotify_finish, spotify_submit. through; try reflexivity.
  all: by apply emits_save_if_any.
Qed.

Lemma applemusic_finish_no_progress E playlist_title n l :
  emits (fun e => progress_of e = None) (applemusic_finish E playlist_title n l).
Proof.
  unfold applemusic_finish, applemusic_submit. through; try reflexivity.
  - unfold applemusic_on_error. destruct r as [[]|]; through.
    by apply emits_save_if_any.
  - by apply emits_save_if_any.
Qed.

(** *** The tasks up to the end of the loop *)

Lemma spotify_conversion_run E url w uid data :
  get_spotify_client E = Ok tt ->
  sp_current_user E = Ok uid ->
  AppleMusicParser_extract_data E url = Ok data ->
  spotify_conversion E url w
  = match spotify_finish E url uid data (spotify_locals E data) w with
    | (r, w2, ev2) =>
        (r, w2,
         [GetSpotifyClient; SpCurrentUser; AppleMusicParse url] ++
         loop_events (spotify_events E) (length (tracks data)) 0 (tracks data)
         ++ ev2)
    end.
Proof.
  intros Hclient Huser Hdata. unfold spotify_conversion.
  erewrite bind_returns by (apply call_ok; eassumption).
  erewrite bind_returns by (apply call_ok; eassumption).
  erewrite bind_returns by (apply call_ok; eassumption).
  erewrite bind_returns by apply spotify_loop_run.
  fold (spotify_locals E data).
  destruct (spotify_finish E url uid data _ w) as [[r w2] ev2].
  reflexivity.
Qed.

Lemma generate_spotify_playlist_miss E url w :
  cache_miss E url w ->
  generate_spotify_playlist E url w
  = match spotify_conversion E (strip_qs E url) w with
    | (r, w2, ev2) =>
        (r, w2,
         LoggerInfo (GeneratingSpotify (strip_qs E url)) ::
         (if DEBUG E then [] else [CacheContains (strip_qs E url)]) ++ ev2)
    end.
Proof.
  intros Hmiss. unfold generate_spotify_playlist, bind, logger_info.
  unfold cache_miss in Hmiss. destruct (DEBUG E) eqn:Hdebug; simpl.
  - by destruct (spotify_conversion E _ w) as [[r w2] ev2].
  - destruct Hmiss as [Hmiss | Hmiss]; [discriminate |].
    unfold cache_contains. rewrite Hmiss.
    rewrite bool_decide_eq_false_2 by (intros [? ?]; discriminate).
    by destruct (spotify_conversion E _ w) as [[r w2] ev2].
Qed.

Lemma generate_applemusic_playlist_run E url token w data :
  SpotifyParser_extract_data E (strip_qs E url) = Ok data ->
  get_applemusic_client E = Ok tt ->
  generate_applemusic_playlist E url token w
  = match applemusic_finish E (title_or_untitled data) (length (tracks data))
            (applemusic_locals E data) w with
    | (r, w2, ev2) =>
        (r, w2,
         [LoggerInfo (GeneratingAppleMusic (strip_qs E url));
          SpotifyParse (strip_qs E url); GetAppleMusicClient] ++
         loop_events (applemusic_events E) (length (tracks data)) 0
           (tracks data)
         ++ ev2)
    end.
Proof.
  intros Hdata Hclient. unfold generate_applemusic_playlist.
  erewrite bind_returns by reflexivity.
  erewrite bind_returns by (apply call_ok; eassumption).
  erewrite bind_returns by (apply call_ok; eassumption).
  erewrite bind_returns by apply applemusic_loop_run.
  fold (applemusic_locals E data).
  destruct (applemusic_finish E _ _ _ w) as [[r w2] ev2].
  reflexivity.
Qed.

(** C8. Progress is reported as [(i+1, n)] once per track, after the track
    is processed and whatever its search answered: the events of either loop
    are, track by track, the search of the track followed by its report, and
    the reports of a task that reaches its loop are [(1, n)] to [(n, n)]. *)
Theorem C8_progress_once_per_track (E : Env) (url token uid : string)
    (data : PlaylistData) (w : World) :
  let n := length (tracks data) in
  ((spotify_loop E n 0 (tracks data) no_locals w).2
   = loop_events (spotify_events E) n 0 (tracks data) /\
   (applemusic_loop E n 0 (tracks data) no_locals w).2
   = loop_events (applemusic_events E) n 0 (tracks data)) /\
  (cache_miss E url w ->
   get_spotify_client E = Ok tt ->
   sp_current_user E = Ok uid ->
   AppleMusicParser_extract_data E (strip_qs E url) = Ok data ->
   omap progress_of (generate_spotify_playlist E url w).2 = reports_up_to n) /\
  (SpotifyParser_extract_data E (strip_qs E url) = Ok data ->
   get_applemusic_client E = Ok tt ->
   omap progress_of (generate_applemusic_playlist E url token w).2
   = reports_up_to n).
Proof.
  intros n. split; [| split].
  - by rewrite spotify_loop_run, applemusic_loop_run.
  - intros Hmiss Hclient Huser Hdata.
    rewrite (generate_spotify_playlist_miss _ _ _ Hmiss).
    rewrite (spotify_conversion_run _ _ _ _ _ Hclient Huser Hdata).
    pose proof (spotify_finish_no_progress E (strip_qs E url) uid data
                  (spotify_locals E data) w) as Hrest.
    destruct (spotify_finish E _ uid data _ w) as [[r w2] ev2].
    cbn [snd] in *.
    change (LoggerInfo ?m :: ?evs) with ([LoggerInfo m] ++ evs).
    rewrite !omap_app, (no_progress_reports _ Hrest), app_nil_r.
    rewrite progress_of_loop_events by reflexivity.
    by destruct (DEBUG E).
  - intros Hdata Hclient.
    rewrite (generate_applemusic_playlist_run _ _ _ _ _ Hdata Hclient).
    pose proof (applemusic_finish_no_progress E (title_or_untitled data) n
                  (applemusic_locals E data) w) as Hrest.
    destruct (applemusic_finish E _ _ _ w) as [[r w2] ev2].
    cbn [snd] in *.
    rewrite !omap_app, (no_progress_reports _ Hrest), app_nil_r.
    rewrite progress_of_loop_events; [reflexivity |].
    intros track. unfold applemusic_events.
    by destruct (SourceTrack.artists track).
Qed.

(** *** Which tracks are missed *)



Lemma missed_tracks_foldl outcome_of tracks :
  (forall track track', outcome_of track = Missed track' -> track' = track) ->
  missed_tracks (foldl record no_locals (map outcome_of tracks))
  = filter (fun track => is_missed (outcome_of track) = true) tracks.
Proof.
  intros Hmissed.
  destruct (foldl_record (map outcome_of tracks) no_locals) as (_ & _ & ->).
  by apply missed_is_filter.
Qed.







Lemma C8_progress_witness :
  omap progress_of
    (generate_spotify_playlist example_env example_url fresh_world).2
  = [(1, 3); (2, 3); (3, 3)] /\
  omap progress_of
    (generate_applemusic_playlist example_env example_url "token"
       fresh_world).2
  = [(1, 3); (2, 3); (3, 3)].
Proof.
  destruct (C8_progress_once_per_track example_env example_url "token" "me"
              example_data fresh_world) as (_ & Hspotify & Happlemusic).
  split.
  - apply Hspotify; [right |..]; reflexivity.
  - apply Happlemusic; reflexivity.
Defined.



(** *** Tracks without artists *)

Lemma applemusic_no_artists_missed E track :
  SourceTrack.artists track = [] -> applemusic_outcome E track = Missed track.
Proof. intros H. unfold applemusic_outcome. by rewrite H. Qed.

Lemma applemusic_matched_has_artists E track i row :
  applemusic_outcome E track = Matched i row ->
  SourceTrack.artists track <> [].
Proof.
  intros Ho Hnone. rewrite (applemusic_no_artists_missed _ _ Hnone) in Ho.
  discriminate.
Qed.

Lemma applemusic_ids_bounded E tracks :
  length (omap matched_id (map (applemusic_outcome E) tracks))
  <= length (filter (fun track => SourceTrack.artists track <> []) tracks).
Proof.
  induction tracks as [|track rest IH]; [done |].
  csimpl. rewrite filter_cons.
  destruct (applemusic_outcome E track) as [i row|track'] eqn:Ho; csimpl.
  - rewrite decide_True by (by eapply applemusic_matched_has_artists).
    simpl. lia.
  - case_decide; simpl; lia.
Qed.

Lemma applemusic_rows_from_artists E tracks row :
  row ∈ omap matched_row (map (applemusic_outcome E) tracks) ->
  exists track,
    track ∈ tracks /\ SourceTrack.artists track <> [] /\
    Track.spotify_id row = SourceTrack.id track.
Proof.
  induction tracks as [|track rest IH]; csimpl; [by intros ?%elem_of_nil |].
  destruct (applemusic_outcome E track) as [i row'|track'] eqn:Ho; csimpl.
  - intros [-> | Hin]%elem_of_cons.
    + exists track. split; [apply list_elem_of_here |]. split.
      * by eapply applemusic_matched_has_artists.
      * by eapply applemusic_row_keeps_id.
    + destruct (IH Hin) as (t & Ht & ?). exists t.
      split; [by apply list_elem_of_further | done].
  - intros Hin. destruct (IH Hin) as (t & Ht & ?). exists t.
    split; [by apply list_elem_of_further | done].
Qed.

(** C10. Towards Apple Music a track without artists is always a miss: it
    is in the missed list, no search is made for it, and every matched id and
    every mapping row comes from a track that has artists.  Towards Spotify a
    track without artists can match. *)
Theorem C10_no_artists_no_match :
  (forall (E : Env) (tracks : list SourceTrack.t) (w : World),
     exists l evs,
       applemusic_loop E (length tracks) 0 tracks no_locals w
         = (Returns l, w, evs) /\
       (forall track,
          track ∈ tracks -> SourceTrack.artists track = [] ->
          track ∈ missed_tracks l /\ applemusic_events E track = []) /\
       length (track_ids l)
         <= length (filter (fun track => SourceTrack.artists track <> [])
                      tracks) /\
       (forall row,
          row ∈ tracks_to_save l ->
          exists track,
            track ∈ tracks /\ SourceTrack.artists track <> [] /\
            Track.spotify_id row = SourceTrack.id track)) /\
  (exists (E : Env) (track : SourceTrack.t),
     SourceTrack.artists track = [] /\
     forall w,
       exists l evs,
         spotify_loop E 1 0 [track] no_locals w = (Returns l, w, evs) /\
         missed_tracks l = [] /\ length (track_ids l) = 1 /\
         length (tracks_to_save l) = 1).
Proof.
  split.
  - intros E tracks w. eexists _, _.
    split; [apply applemusic_loop_run |].
    destruct (foldl_record (map (applemusic_outcome E) tracks) no_locals)
      as (Hids & Hrows & Hmissed).
    rewrite Hids, Hrows. split; [| split].
    + intros track Hin Hnone. split.
      * rewrite missed_tracks_foldl by apply applemusic_missed_is_track.
        apply list_elem_of_filter. split; [| assumption].
        by rewrite (applemusic_no_artists_missed _ _ Hnone).
      * unfold applemusic_events. by rewrite Hnone.
    + apply applemusic_ids_bounded.
    + apply applemusic_rows_from_artists.
  - exists example_env, song_c. split; [reflexivity |].
    intros w. eexists _, _. split; [apply spotify_loop_run |].
    by vm_compute.
Qed.

Lemma C10_no_artists_witness :
  exists l evs,
    applemusic_loop example_env 3 0 [song_a; song_b; song_c] no_locals
      fresh_world = (Returns l, fresh_world, evs) /\
    song_c ∈ missed_tracks l /\ applemusic_events example_env song_c = [].
Proof.
  destruct C10_no_artists_no_match as [Happlemusic _].
  destruct (Happlemusic example_env [song_a; song_b; song_c] fresh_world)
    as (l & evs & Hrun & Hmissed & _).
  exists l, evs. split; [exact Hrun |].
  apply Hmissed; [| reflexivity].
  apply list_elem_of_further, list_elem_of_further, list_elem_of_here.
Defined.

(** *** Chunks *)

Lemma ceil_div_zero n : 0 < n -> ceil_div 0 n = 0.
Proof. intros Hn. unfold ceil_div. apply Nat.div_small. lia. Qed.

Lemma ceil_div_step len n :
  0 < n -> 0 < len -> ceil_div len n = S (ceil_div (len - n) n).
Proof.
  intros Hn Hlen. unfold ceil_div.
  destruct (Nat.le_gt_cases n len) as [Hge | Hlt].
  - replace (len + n - 1) with ((len - n + n - 1) + 1 * n) by lia.
    rewrite Nat.div_add by lia. lia.
  - replace (len - n) with 0 by lia.
    rewrite (Nat.div_small (0 + n - 1)) by lia.
    symmetry. apply (Nat.div_unique _ _ 1 (len - 1)); lia.
Qed.

Lemma grouper_fuel_spec {A} n : 0 < n ->
  forall fuel (l : list A), length l <= fuel ->
    length (grouper_fuel fuel n l) = ceil_div (length l) n /\
    Forall (fun chunk => length chunk <= n) (grouper_fuel fuel n l) /\
    concat (grouper_fuel fuel n l) = l.
Proof.
  intros Hn. induction fuel as [|fuel IH]; intros l Hl.
  - destruct l; [| simpl in Hl; lia]. simpl.
    by rewrite ceil_div_zero.
  - simpl. destruct (take n l) as [|x chunk] eqn:Htake.
    + assert (l = []) as ->.
      { destruct l, n; try done; lia. }
      simpl. by rewrite ceil_div_zero.
    + assert (0 < length l) by (destruct l; [by rewrite take_nil in Htake |
                                               simpl; lia]).
      destruct (IH (drop n l)) as (Hlen & Hall & Hcat).
      { rewrite length_drop. lia. }
      rewrite <- Htake. split; [| split].
      * simpl. rewrite Hlen, length_drop. by rewrite <- ceil_div_step.
      * constructor; [rewrite length_take; lia | exact Hall].
      * simpl. rewrite Hcat. apply take_drop.
Qed.

Lemma grouper_spec {A} n (l : list A) : 0 < n ->
  length (grouper n l) = ceil_div (length l) n /\
  Forall (fun chunk => length chunk <= n) (grouper n l) /\
  concat (grouper n l) = l.
Proof. intros Hn. by apply grouper_fuel_spec. Qed.

Lemma filter_append_map {A} (ev : A -> Event) (xs : list A) :
  (forall x, is_append (ev x) = true) ->
  List.filter is_append (map ev xs) = map ev xs.
Proof.
  intros H. induction xs as [|x xs IH]; [reflexivity |].
  simpl. by rewrite H, IH.
Qed.

Lemma filter_creation_map {A} (ev : A -> Event) (xs : list A) :
  (forall x, is_creation (ev x) = false) ->
  List.filter is_creation (map ev xs) = [].
Proof.
  intros H. induction xs as [|x xs IH]; [reflexivity |].
  simpl. by rewrite H, IH.
Qed.

Lemma Forall_map_chunks {A} (ev : list A -> Event) (chunks : list (list A)) B :
  (forall chunk, items_carried (ev chunk) = length chunk) ->
  Forall (fun chunk => length chunk <= B) chunks ->
  Forall (fun e => items_carried e <= B) (map ev chunks).
Proof.
  intros Hev. induction 1 as [|chunk chunks Hc _ IH]; simpl; constructor;
    [by rewrite Hev | exact IH].
Qed.

(** *** Batch submission, when it goes through *)

Lemma applemusic_submit_returns E title ids w u w' evs :
  applemusic_submit E title ids w = (Returns u, w', evs) ->
  chunked_as_specified 100 (length ids) evs.
Proof.
  unfold applemusic_submit, chunked_as_specified.
  destruct (100 <? length ids) eqn:Hlong.
  - apply Nat.ltb_lt in Hlong. unfold bind at 1, call at 1.
    destruct (am_user_playlist_create E _ _ _) as [[playlist_id|]|e];
      [| intros [=] | intros [=]].
    unfold bind at 1, ret at 1.
    destruct (for_each _ _ w) as [[r w2] ev2] eqn:Hloop.
    intros [= -> -> <-].
    apply for_each_returns in Hloop as [_ ->].
    destruct (grouper_spec 100 (drop 100 ids)) as (Hlen & Hall & _); [lia |].
    simpl. rewrite filter_append_map, filter_creation_map by reflexivity.
    rewrite length_map, Hlen, length_drop, length_take.
    split; [reflexivity |]. split; [f_equal; lia |].
    constructor; [simpl; rewrite length_take; lia |].
    by apply Forall_map_chunks.
  - apply Nat.ltb_ge in Hlong. unfold bind, call, ret.
    destruct (am_user_playlist_create E _ _ _) as [reply_id|e];
      intros [= _ _ <-].
    replace (length ids - 100) with 0 by lia.
    rewrite ceil_div_zero by lia.
    cbn [List.filter is_append is_creation map items_carried].
    split; [reflexivity |]. split; [f_equal; lia |].
    constructor; [exact Hlong | constructor].
Qed.

Lemma spotify_submit_returns E uid title ids w playlist_url w' evs :
  spotify_submit E uid title ids w = (Returns playlist_url, w', evs) ->
  length (List.filter is_append evs)
  = (if length ids <=? 100 then 1 else ceil_div (length ids) 100) /\
  map items_carried (List.filter is_creation evs) = [0].
Proof.
  unfold spotify_submit. unfold bind at 1, call at 1.
  destruct (sp_user_playlist_create E _ _ _) as [[playlist_id url]|e];
    [| intros [=]].
  cbn [fst snd]. unfold bind at 1.
  destruct (100 <? length ids) eqn:Hlong.
  - apply Nat.ltb_lt in Hlong.
    destruct (for_each _ _ w) as [[[[]|r] w2] ev2] eqn:Hloop; [| intros [=]].
    unfold ret. intros [= _ _ <-].
    apply for_each_returns in Hloop as [_ ->].
    destruct (grouper_spec 100 ids) as (Hlen & _ & _); [lia |].
    simpl. rewrite app_nil_r.
    rewrite filter_append_map, filter_creation_map by reflexivity.
    rewrite length_map, Hlen.
    destruct (Nat.leb_spec (length ids) 100); [lia | done].
  - apply Nat.ltb_ge in Hlong. unfold call, ret.
    destruct (sp_playlist_add_items E _ _) as [[]|e]; intros [= _ _ <-].
    simpl. by destruct (Nat.leb_spec (length ids) 100); [| lia].
Qed.

(** *** No call above the batch size, however a task ends *)

Lemma Forall_loop_events (P : Event -> Prop) search n tracks :
  (forall track, Forall P (search track)) ->
  (forall current, P (SetProgress current n)) ->
  forall i, Forall P (loop_events search n i tracks).
Proof.
  intros Hsearch Hprogress.
  induction tracks as [|track rest IH]; intros i; simpl; [constructor |].
  apply Forall_app. split; [apply Hsearch |].
  constructor; [apply Hprogress | apply IH].
Qed.

Lemma emits_spotify_loop (P : Event -> Prop) E n i tracks l :
  (forall query, P (SpSearch query 1)) ->
  (forall current, P (SetProgress current n)) ->
  emits P (spotify_loop E n i tracks l).
Proof.
  intros Hsearch Hprogress w. rewrite spotify_loop_run.
  apply Forall_loop_events; [| assumption].
  intros track. by repeat constructor.
Qed.

Lemma emits_applemusic_loop (P : Event -> Prop) E n i tracks l :
  (forall query, P (AmSearch query 1)) ->
  (forall current, P (SetProgress current n)) ->
  emits P (applemusic_loop E n i tracks l).
Proof.
  intros Hsearch Hprogress w. rewrite applemusic_loop_run.
  apply Forall_loop_events; [| assumption].
  intros track. unfold applemusic_events.
  destruct (SourceTrack.artists track); by repeat constructor.
Qed.

Lemma chunk_within_batch {A} (chunk : list A) (l : list A) :
  chunk ∈ grouper 100 l -> length chunk <= 100.
Proof.
  destruct (grouper_spec 100 l) as (_ & Hall & _); [lia |].
  rewrite Forall_forall in Hall. apply Hall.
Qed.

Lemma spotify_submit_within_batch E uid title ids :
  emits within_batch (spotify_submit E uid title ids).
Proof.
  unfold spotify_submit, within_batch. through; simpl; try lia.
  - by eapply chunk_within_batch.
  - by apply Nat.ltb_ge.
Qed.

Lemma applemusic_submit_within_batch E title ids :
  emits within_batch (applemusic_submit E title ids).
Proof.
  unfold applemusic_submit, within_batch. through; simpl; try lia.
  - rewrite length_take. lia.
  - by eapply chunk_within_batch.
  - by apply Nat.ltb_ge.
Qed.

Lemma generate_spotify_playlist_within_batch E url :
  emits within_batch (generate_spotify_playlist E url).
Proof.
  unfold generate_spotify_playlist, spotify_conversion, spotify_finish.
  through;
    try apply spotify_submit_within_batch;
    try (apply emits_spotify_loop; intros);
    try apply emits_save_if_any;
    unfold within_batch; simpl; lia.
Qed.

Lemma generate_applemusic_playlist_within_batch E url token :
  emits within_batch (generate_applemusic_playlist E url token).
Proof.
  unfold generate_applemusic_playlist, applemusic_finish, applemusic_on_error.
  through;
    try apply applemusic_submit_within_batch;
    try (apply emits_applemusic_loop; intros);
    try (destruct r as [[]|]; through);
    try apply emits_save_if_any;
    unfold within_batch; simpl; lia.
Qed.

(** C2, as the code has it.  Towards Apple Music a submission that goes
    through makes one creation call carrying [min(L, 100)] items and
    [ceil(max(0, L-100)/100)] append calls.  Towards Spotify the creation
    call carries no item, and a submission that goes through makes one append
    call when [L <= 100] and [ceil(L/100)] append calls otherwise.  In both
    tasks, however they end, no call carries more than 100 items. *)
Theorem C2_batches_of_at_most_100 (E : Env) (url token uid title : string)
    (ids : list string) (w : World) :
  (forall u w' evs,
     applemusic_submit E title ids w = (Returns u, w', evs) ->
     chunked_as_specified 100 (length ids) evs) /\
  (forall playlist_url w' evs,
     spotify_submit E uid title ids w = (Returns playlist_url, w', evs) ->
     length (List.filter is_append evs)
     = (if length ids <=? 100 then 1 else ceil_div (length ids) 100) /\
     map items_carried (List.filter is_creation evs) = [0]) /\
  Forall within_batch (generate_applemusic_playlist E url token w).2 /\
  Forall within_batch (generate_spotify_playlist E url w).2.
Proof.
  split; [| split; [| split]].
  - intros u w' evs. apply applemusic_submit_returns.
  - intros playlist_url w' evs. apply spotify_submit_returns.
  - apply generate_applemusic_playlist_within_batch.
  - apply generate_spotify_playlist_within_batch.
Qed.

Lemma C2_batches_witness :
  (chunked_as_specified 100 250
     (applemusic_submit example_env "Mix" (replicate 250 "x") fresh_world).2 /\
   length (List.filter is_append
             (applemusic_submit example_env "Mix" (replicate 250 "x")
                fresh_world).2) = 2) /\
  length (List.filter is_append
            (spotify_submit example_env "me" "Mix" (replicate 250 "x")
               fresh_world).2) = 3.
Proof.
  destruct (C2_batches_of_at_most_100 example_env example_url "token" "me"
              "Mix" (replicate 250 "x") fresh_world)
    as (Happlemusic & Hspotify & _).
  split; [split |].
  - eapply Happlemusic. vm_compute. reflexivity.
  - reflexivity.
  - destruct (Hspotify example_playlist_url fresh_world
                (spotify_submit example_env "me" "Mix" (replicate 250 "x")
                   fresh_world).2) as [Happends _].
    + vm_compute. reflexivity.
    + rewrite Happends. reflexivity.
Defined.

(** C2 as stated fails towards Spotify: the example playlist has two
    matches, and its conversion makes one append call, where the claim has
    none, and a creation call without items, where the claim has two. *)
Lemma C2_spotify_counterexample :
  length (track_ids (spotify_locals example_env example_data)) = 2 /\
  List.filter (fun e => is_creation e || is_append e)
    (generate_spotify_playlist example_env example_url fresh_world).2
  = [SpUserPlaylistCreate "me" "Mix" description;
     SpPlaylistAddItems "p1" ["spotify:track:a1"; "spotify:track:c1"]] /\
  ~ chunked_as_specified 100 2
      (generate_spotify_playlist example_env example_url fresh_world).2.
Proof.
  split; [reflexivity |]. split; [reflexivity |].
  intros (Happend & _). vm_compute in Happend. discriminate.
Qed.

(** *** Taking a run apart *)

Lemma bind_returns_inv {A B} (m : M A) (f : A -> M B) w b w2 evs :
  bind m f w = (Returns b, w2, evs) ->
  exists a w1 ev1 ev2,
    m w = (Returns a, w1, ev1) /\ f a w1 = (Returns b, w2, ev2) /\
    evs = ev1 ++ ev2.
Proof.
  unfold bind. destruct (m w) as [[[a|r] w1] ev1]; [| intros [=]].
  destruct (f a w1) as [[r2 w3] ev2] eqn:Hf. intros [= -> -> <-].
  by exists a, w1, ev1, ev2.
Qed.

Lemma frames_returns {A} (m : M A) w a w1 ev1 :
  frames m -> m w = (Returns a, w1, ev1) -> w1 = w.
Proof. intros Hm Hrun. specialize (Hm w). by rewrite Hrun in Hm. Qed.

Lemma frames_spotify_submit E uid title ids :
  frames (spotify_submit E uid title ids).
Proof. unfold spotify_submit. through. Qed.

Lemma frames_applemusic_submit E title ids :
  frames (applemusic_submit E title ids).
Proof. unfold applemusic_submit. through. Qed.

(** What a Spotify conversion that returns has done to the world and what it
    returns. *)
Lemma spotify_finish_returns E url uid data l w r w' evs :
  spotify_finish E url uid data l w = (Returns r, w', evs) ->
  exists playlist_url,
    r = full_result (PyStr playlist_url) (length (tracks data))
          (missed_tracks l) "apple-music" "spotify" /\
    cache w' = <[url := (playlist_url, (now w + 3600)%Z)]> (cache w) /\
    now w' = now w /\
    playlist_counter w' = S (playlist_counter w).
Proof.
  unfold spotify_finish. intros Hrun.
  apply bind_returns_inv in Hrun
    as (playlist_url & w1 & ev1 & ev2 & Hsubmit & Hrun & _).
  apply (frames_returns _ _ _ _ _ (frames_spotify_submit _ _ _ _)) in Hsubmit
    as ->.
  apply bind_returns_inv in Hrun as ([] & w2 & ev3 & ev4 & Hrow & Hrun & _).
  apply (frames_returns _ _ _ _ _ (frames_call _ _)) in Hrow as ->.
  apply bind_returns_inv in Hrun as ([] & w3 & ev5 & ev6 & Hsave & Hrun & _).
  apply (frames_returns _ _ _ _ _ (frames_save_if_any _ _ _)) in Hsave as ->.
  exists playlist_url. unfold bind, cache_set, incr_playlist_counter,
    logger_info, ret in Hrun.
  injection Hrun as <- <- _. done.
Qed.

Lemma spotify_conversion_returns E url w r w' evs :
  spotify_conversion E url w = (Returns r, w', evs) ->
  exists playlist_url n missed,
    r = full_result (PyStr playlist_url) n missed "apple-music" "spotify" /\
    cache w' = <[url := (playlist_url, (now w + 3600)%Z)]> (cache w) /\
    now w' = now w /\
    playlist_counter w' = S (playlist_counter w).
Proof.
  unfold spotify_conversion. intros Hrun.
  apply bind_returns_inv in Hrun as ([] & w1 & ? & ? & Hclient & Hrun & _).
  apply (frames_returns _ _ _ _ _ (frames_call _ _)) in Hclient as ->.
  apply bind_returns_inv in Hrun as (uid & w1 & ? & ? & Huser & Hrun & _).
  apply (frames_returns _ _ _ _ _ (frames_call _ _)) in Huser as ->.
  apply bind_returns_inv in Hrun as (data & w1 & ? & ? & Hdata & Hrun & _).
  apply (frames_returns _ _ _ _ _ (frames_call _ _)) in Hdata as ->.
  apply bind_returns_inv in Hrun as (l & w1 & ? & ? & Hloop & Hrun & _).
  rewrite spotify_loop_run in Hloop. injection Hloop as _ <- _.
  apply spotify_finish_returns in Hrun as (playlist_url & Hr & Hw).
  by exists playlist_url, (length (tracks data)), (missed_tracks l).
Qed.

Lemma generate_spotify_playlist_miss_returns E url w r w' evs :
  cache_miss E url w ->
  generate_spotify_playlist E url w = (Returns r, w', evs) ->
  exists playlist_url n missed,
    r = full_result (PyStr playlist_url) n missed "apple-music" "spotify" /\
    cache w'
    = <[strip_qs E url := (playlist_url, (now w + 3600)%Z)]> (cache w) /\
    now w' = now w /\
    playlist_counter w' = S (playlist_counter w).
Proof.
  intros Hmiss. rewrite (generate_spotify_playlist_miss _ _ _ Hmiss).
  destruct (spotify_conversion E _ w) as [[r2 w2] ev2] eqn:Hrun.
  intros [= -> -> _]. by eapply spotify_conversion_returns.
Qed.

(** *** The cache hit *)

Lemma spotify_cached_run E url w u :
  DEBUG E = false ->
  cache_live w (strip_qs E url) = Some u ->
  generate_spotify_playlist E url w
  = (Returns (cached_result (PyStr u)), w, cache_hit_events (strip_qs E url)).
Proof.
  intros Hdebug Hlive.
  unfold generate_spotify_playlist. cbv zeta. rewrite Hdebug.
  unfold bind, logger_info, cache_contains, cache_get, ret.
  cbn [negb]. rewrite Hlive.
  rewrite bool_decide_eq_true_2 by eauto.
  cbn beta. by rewrite Hlive.
Qed.

Lemma cache_live_after_set w w' key value t :
  cache w' = <[key := (value, (now w + 3600)%Z)]> (cache w) ->
  (t < now w + 3600)%Z ->
  cache_live (at_time t w') key = Some value.
Proof.
  intros Hcache Ht. unfold cache_live, at_time. simpl.
  rewrite Hcache, lookup_insert_eq.
  by rewrite (proj2 (Z.ltb_lt _ _) Ht).
Qed.

(** C9. When the cached path of [generate_spotify_playlist] fires, the task
    reads the cache and does nothing else: the world is unchanged, its events
    are the log line and the two cache reads, none of them a side effect, and
    the result has the playlist URL and the two service names only, where a
    full computation also returns the track count and the missed tracks. *)
Theorem C9_cache_hit_has_no_effect (E : Env) (url : string) (w : World)
    (u : string) :
  DEBUG E = false ->
  cache_live w (strip_qs E url) = Some u ->
  (exists r evs,
     generate_spotify_playlist E url w = (Returns r, w, evs) /\
     evs = cache_hit_events (strip_qs E url) /\
     List.filter is_side_effect evs = [] /\
     r = [("playlist_url", PyStr u); ("destination", PyStr "spotify");
          ("source", PyStr "apple-music")] /\
     dict_get r "number_of_tracks" = None /\
     dict_get r "missed_tracks" = None) /\
  (forall w0 r w' evs,
     cache_miss E url w0 ->
     generate_spotify_playlist E url w0 = (Returns r, w', evs) ->
     is_Some (dict_get r "number_of_tracks") /\
     is_Some (dict_get r "missed_tracks")).
Proof.
  intros Hdebug Hlive. split.
  - eexists _, _. split; [by apply spotify_cached_run |]. done.
  - intros w0 r w' evs Hmiss Hrun.
    destruct (generate_spotify_playlist_miss_returns _ _ _ _ _ _ Hmiss Hrun)
      as (playlist_url & n & missed & -> & _).
    split; eexists; reflexivity.
Qed.

Lemma C9_cache_hit_witness :
  exists r evs,
    generate_spotify_playlist example_env example_url cached_world
    = (Returns r, cached_world, evs) /\
    List.filter is_side_effect evs = [] /\
    dict_keys r = ["playlist_url"; "destination"; "source"].
Proof.
  destruct (C9_cache_hit_has_no_effect example_env example_url cached_world
              example_playlist_url) as [(r & evs & Hrun & _ & Hno & -> & _) _].
  - reflexivity.
  - reflexivity.
  - eexists _, evs. split; [exact Hrun |]. split; [exact Hno | reflexivity].
Defined.

(** C3 as stated fails towards Apple Music: in production mode, with a live
    cache entry for the stripped URL, [generate_applemusic_playlist] does not
    replay the cache; it searches for every track that has an artist, and
    returns no URL. *)
Lemma C3_applemusic_counterexample :
  DEBUG example_env = false /\
  cache_live cached_world (strip_qs example_env example_url)
  = Some example_playlist_url /\
  List.filter is_search
    (generate_applemusic_playlist example_env example_url "token"
       cached_world).2
  = [AmSearch "Song A Artist1" 1; AmSearch "Song B Artist4" 1] /\
  (generate_applemusic_playlist example_env example_url "token"
     cached_world).1.1
  = Returns (full_result PyNone 3 [song_b; song_c] "spotify" "apple-music") /\
  ~ replays_cache example_playlist_url
      (generate_applemusic_playlist example_env example_url "token"
         cached_world).
Proof.
  repeat split; try reflexivity.
  intros [_ Hsearch]. vm_compute in Hsearch. discriminate.
Qed.

(** *** Errors of batch submission *)

Lemma save_if_any_swallows E match_field rows w :
  store_takes_or_conflicts E match_field rows ->
  save_if_any E match_field rows w
  = (Returns tt, w, mapping_write match_field rows).
Proof.
  unfold save_if_any, mapping_write, save_or_update_tracks, try_except, call.
  intros [H | H]; destruct (0 <? length rows); try reflexivity;
    by rewrite H.
Qed.

Lemma no_retry_spotify_loop E n i tracks l : no_retry (spotify_loop E n i tracks l).
Proof. intros w exc countdown. by rewrite spotify_loop_run. Qed.

Lemma no_retry_spotify_submit E uid title ids :
  no_retry (spotify_submit E uid title ids).
Proof. unfold spotify_submit. through. Qed.

Lemma no_retry_applemusic_submit E title ids :
  no_retry (applemusic_submit E title ids).
Proof. unfold applemusic_submit. through. Qed.

Lemma no_retry_cache_contains key : no_retry (cache_contains key).
Proof. intros w exc countdown. discriminate. Qed.

Lemma no_retry_cache_get key : no_retry (cache_get key).
Proof. intros w exc countdown. discriminate. Qed.

Lemma no_retry_generate_spotify_playlist E url :
  no_retry (generate_spotify_playlist E url).
Proof.
  unfold generate_spotify_playlist, spotify_conversion, spotify_finish.
  through;
    first [ apply no_retry_cache_contains | apply no_retry_cache_get
          | apply no_retry_spotify_loop | apply no_retry_spotify_submit
          | apply no_retry_save_if_any ].
Qed.

(** The end of [generate_applemusic_playlist], by what submission did. *)
Lemma applemusic_finish_on_5xx E title n l w status w1 ev1 :
  applemusic_submit E title (track_ids l) w
    = (Raises (Exn (HTTPError status)), w1, ev1) ->
  (500 <= status)%Z ->
  store_takes_or_conflicts E "apple_music_id" (tracks_to_save l) ->
  applemusic_finish E title n l w
  = (Raises (Retry (HTTPError status) 30), w,
     ev1 ++ mapping_write "apple_music_id" (tracks_to_save l)).
Proof.
  intros Hsubmit Hstatus Hstore.
  pose proof (frames_applemusic_submit E title (track_ids l) w) as Hw.
  rewrite Hsubmit in Hw. simpl in Hw. subst w1.
  unfold applemusic_finish, bind at 1, try_except. rewrite Hsubmit.
  unfold applemusic_on_error.
  rewrite (proj2 (Z.leb_le _ _) Hstatus).
  unfold bind, raise. rewrite (save_if_any_swallows _ _ _ _ Hstore).
  by rewrite app_nil_r.
Qed.

Lemma applemusic_finish_on_other E title n l w e w1 ev1 :
  applemusic_submit E title (track_ids l) w = (Raises (Exn e), w1, ev1) ->
  (forall status, e = HTTPError status -> (status < 500)%Z) ->
  applemusic_finish E title n l w = (Raises (Exn e), w, ev1).
Proof.
  intros Hsubmit Hlow.
  pose proof (frames_applemusic_submit E title (track_ids l) w) as Hw.
  rewrite Hsubmit in Hw. simpl in Hw. subst w1.
  unfold applemusic_finish, bind at 1, try_except. rewrite Hsubmit.
  unfold applemusic_on_error, raise.
  destruct e as [status| | | | |]; try (by rewrite app_nil_r).
  rewrite (proj2 (Z.leb_gt _ _) (Hlow status eq_refl)).
  by rewrite app_nil_r.
Qed.

Lemma applemusic_finish_retry_inv E title n l w exc countdown w' evs :
  applemusic_finish E title n l w = (Raises (Retry exc countdown), w', evs) ->
  exists status w1 ev1,
    applemusic_submit E title (track_ids l) w
      = (Raises (Exn (HTTPError status)), w1, ev1) /\
    (500 <= status)%Z /\ exc = HTTPError status /\ countdown = 30%Z.
Proof.
  unfold applemusic_finish, bind at 1, try_except.
  pose proof (no_retry_applemusic_submit E title (track_ids l) w) as Hsubmit.
  destruct (applemusic_submit E title (track_ids l) w)
    as [[[[]|r] w1] ev1].
  - intros Hrest. exfalso.
    assert (Hno : no_retry
      (do _ <- incr_playlist_counter;
       do _ <- save_if_any E "apple_music_id" (tracks_to_save l);
       do _ <- logger_info (MissedReport (length (missed_tracks l)) n
                              (missed_tracks l));
       ret (full_result PyNone n (missed_tracks l) "spotify" "apple-music"))).
    { through. apply no_retry_save_if_any. }
    specialize (Hno w1 exc countdown). unfold full_result in Hno.
    destruct (bind incr_playlist_counter _ w1) as [[r2 w2] ev2].
    simpl in Hno. congruence.
  - destruct r as [e|exc' countdown'];
      [| by destruct (Hsubmit exc' countdown')].
    unfold applemusic_on_error.
    destruct e as [status| | | | |]; [| unfold raise; intros [=]..].
    destruct (500 <=? status)%Z eqn:Hstatus;
      [| unfold raise; cbn; intros [=]].
    unfold bind, raise.
    pose proof (no_retry_save_if_any E "apple_music_id" (tracks_to_save l) w1
                  exc countdown) as Hsave.
    destruct (save_if_any E _ _ w1) as [[[[]|r2] w2] ev2]; simpl in Hsave.
    + intros [= <- <- _ _]. exists status, w1, ev1.
      by rewrite Z.leb_le in Hstatus.
    + intros [= -> _ _]. congruence.
Qed.

(** *** Conflicts in the mapping store *)









(** ** Further properties of the tasks *)

(** *** What a run does to the cache and to the counter *)

Lemma frames_logger_info msg : frames (logger_info msg).
Proof. intros w. reflexivity. Qed.

Lemma frames_cache_contains key : frames (cache_contains key).
Proof. intros w. reflexivity. Qed.

Lemma frames_cache_get key : frames (cache_get key).
Proof. intros w. reflexivity. Qed.

Lemma fails_clean_frames {A} (m : M A) : frames m -> fails_clean m.
Proof.
  intros Hm w r w' evs Hrun. specialize (Hm w). by rewrite Hrun in Hm.
Qed.

Lemma fails_clean_bind {A B} (m : M A) (f : A -> M B) :
  frames m -> (forall a, fails_clean (f a)) -> fails_clean (bind m f).
Proof.
  intros Hm Hf w r w' evs. unfold bind. specialize (Hm w).
  destruct (m w) as [[[a|r1] w1] ev1]; simpl in Hm; subst w1.
  - destruct (f a w) as [[r2 w2] ev2] eqn:Hrun. intros [= -> -> _].
    by eapply Hf.
  - by intros [= _ <- _].
Qed.

Lemma fails_clean_spotify_finish E url uid data l :
  fails_clean (spotify_finish E url uid data l).
Proof.
  unfold spotify_finish. cbv zeta.
  apply fails_clean_bind; [apply frames_spotify_submit | intros playlist_url].
  apply fails_clean_bind; [apply frames_call | intros _].
  apply fails_clean_bind; [apply frames_save_if_any | intros _].
  intros w r w' evs Hrun. discriminate Hrun.
Qed.

Lemma frames_spotify_loop E n i tracks l : frames (spotify_loop E n i tracks l).
Proof. intros w. by rewrite spotify_loop_run. Qed.

Lemma frames_applemusic_loop E n i tracks l :
  frames (applemusic_loop E n i tracks l).
Proof. intros w. by rewrite applemusic_loop_run. Qed.

Lemma fails_clean_generate_spotify_playlist E url :
  fails_clean (generate_spotify_playlist E url).
Proof.
  assert (Hconversion : forall key, fails_clean (spotify_conversion E key)).
  { intros key. unfold spotify_conversion. cbv zeta.
    apply fails_clean_bind; [apply frames_call | intros _].
    apply fails_clean_bind; [apply frames_call | intros uid].
    apply fails_clean_bind; [apply frames_call | intros data].
    apply fails_clean_bind; [apply frames_spotify_loop | intros l].
    apply fails_clean_spotify_finish. }
  unfold generate_spotify_playlist. cbv zeta.
  apply fails_clean_bind; [apply frames_logger_info | intros _].
  destruct (negb (DEBUG E)); [| apply Hconversion].
  apply fails_clean_bind; [apply frames_cache_contains | intros hit].
  destruct hit; [| apply Hconversion].
  apply fails_clean_frames. through. apply frames_cache_get.
Qed.

Lemma raises_in_call {A} (p : Event -> bool) ev (r : reply A) :
  p ev = true -> raises_in p (call ev r).
Proof.
  intros Hev w x w' evs. unfold call. destruct r; intros [= _ _ <-].
  by exists [], ev.
Qed.

Lemma raises_in_bind {A B} (p : Event -> bool) (m : M A) (f : A -> M B) :
  raises_in p m -> (forall a, raises_in p (f a)) -> raises_in p (bind m f).
Proof.
  intros Hm Hf w x w' evs. unfold bind.
  destruct (m w) as [[[a|x1] w1] ev1] eqn:Hrun.
  - destruct (f a w1) as [[r2 w2] ev2] eqn:Hrest. intros [= -> -> <-].
    destruct (Hf _ _ _ _ _ Hrest) as (before & e & -> & He).
    exists (ev1 ++ before), e. by rewrite <- app_assoc.
  - intros [= <- <- <-]. by eapply Hm.
Qed.

Lemma raises_in_returns {A} (p : Event -> bool) (m : M A) :
  (forall w, exists a, (m w).1.1 = Returns a) -> raises_in p m.
Proof.
  intros Hm w x w' evs Hrun. destruct (Hm w) as [a Ha].
  by rewrite Hrun in Ha.
Qed.

Lemma raises_in_for_each {A} (p : Event -> bool) (xs : list A)
    (body : A -> M unit) :
  (forall x, raises_in p (body x)) -> raises_in p (for_each xs body).
Proof.
  intros Hbody. induction xs as [|x xs IH]; simpl.
  - apply raises_in_returns. intros w. by exists tt.
  - apply raises_in_bind; [apply Hbody | intros _; apply IH].
Qed.

Lemma raises_in_save_if_any (p : Event -> bool) E match_field rows :
  p (BulkUpdateOrCreate rows match_field) = true ->
  raises_in p (save_if_any E match_field rows).
Proof.
  intros Hp w x w' evs.
  unfold save_if_any, save_or_update_tracks, try_except, call, ret, raise.
  destruct (0 <? length rows); [| intros [=]].
  destruct (Track_objects_bulk_update_or_create E rows match_field)
    as [[]|[]]; intros [= _ _ <-]; by eexists [], _.
Qed.

Lemma raises_in_spotify_submit E uid title ids :
  raises_in is_call_before_cache_set (spotify_submit E uid title ids).
Proof.
  unfold spotify_submit.
  apply raises_in_bind; [by apply raises_in_call | intros playlist].
  apply raises_in_bind.
  - destruct (100 <? length ids).
    + apply raises_in_for_each. intros chunk. by apply raises_in_call.
    + by apply raises_in_call.
  - intros _. apply raises_in_returns. intros w. by eexists.
Qed.

Lemma raises_in_generate_spotify_playlist E url :
  raises_in is_call_before_cache_set (generate_spotify_playlist E url).
Proof.
  assert (Hconversion : forall key,
    raises_in is_call_before_cache_set (spotify_conversion E key)).
  { intros key. unfold spotify_conversion, spotify_finish. cbv zeta.
    apply raises_in_bind; [by apply raises_in_call | intros _].
    apply raises_in_bind; [by apply raises_in_call | intros uid].
    apply raises_in_bind; [by apply raises_in_call | intros data].
    apply raises_in_bind.
    { apply raises_in_returns. intros w. rewrite spotify_loop_run.
      by eexists. }
    intros l.
    apply raises_in_bind; [apply raises_in_spotify_submit | intros purl].
    apply raises_in_bind; [by apply raises_in_call | intros _].
    apply raises_in_bind; [by apply raises_in_save_if_any | intros _].
    apply raises_in_returns. intros w. by eexists. }
  unfold generate_spotify_playlist. cbv zeta.
  apply raises_in_bind;
    [apply raises_in_returns; intros w; by exists tt | intros _].
  destruct (negb (DEBUG E)); [| apply Hconversion].
  apply raises_in_bind;
    [apply raises_in_returns; intros w; by eexists | intros hit].
  destruct hit; [| apply Hconversion].
  apply raises_in_returns. intros w. by eexists.
Qed.

(** X1. When [generate_spotify_playlist] raises because one of the calls it
    makes before [cache.set] raised (its client, the current user, the
    parser, playlist creation, an append, the playlist row or the mapping
    write: the calls of the task modelled as able to raise), the cache and
    the counter are as they were: the raise is the last event, it is one of
    those calls, and the world is unchanged. *)
Theorem X1_spotify_failure_leaves_world (E : Env) (url : string) (w w' : World)
    (r : raised) (evs : list Event) :
  generate_spotify_playlist E url w = (Raises r, w', evs) ->
  w' = w /\
  exists before e,
    evs = before ++ [e] /\ is_call_before_cache_set e = true.
Proof.
  intros Hrun. split.
  - by eapply fails_clean_generate_spotify_playlist.
  - by eapply raises_in_generate_spotify_playlist.
Qed.

Lemma X1_spotify_failure_witness :
  (generate_spotify_playlist failing_env example_url fresh_world).1.2
  = fresh_world /\
  exists before e,
    (generate_spotify_playlist failing_env example_url fresh_world).2
    = before ++ [e] /\ is_call_before_cache_set e = true.
Proof.
  apply (X1_spotify_failure_leaves_world failing_env example_url fresh_world
           _ (Exn (SpotifyException 503))
           (generate_spotify_playlist failing_env example_url fresh_world).2).
  reflexivity.
Defined.

Lemma call_returns_inv {A} ev (r : reply A) w a w1 ev1 :
  call ev r w = (Returns a, w1, ev1) -> r = Ok a /\ w1 = w /\ ev1 = [ev].
Proof. unfold call. destruct r; intros [= <- <- <-] || intros [=]. done. Qed.

Lemma spotify_submit_returns_url E uid title ids w playlist_url w' evs :
  spotify_submit E uid title ids w = (Returns playlist_url, w', evs) ->
  exists playlist_id,
    sp_user_playlist_create E uid title description
    = Ok (playlist_id, playlist_url).
Proof.
  unfold spotify_submit. intros Hrun.
  apply bind_returns_inv in Hrun as ([pid purl] & w1 & ? & ? & Hc & Hrun & _).
  apply call_returns_inv in Hc as (Hc & _).
  apply bind_returns_inv in Hrun as ([] & w2 & ? & ? & _ & Hret & _).
  unfold ret in Hret. injection Hret as <- _ _. by exists pid.
Qed.

(** X2. A conversion towards Spotify that went through the loop and
    returned: the playlist URL of the result is the one playlist creation
    answered, [number_of_tracks] is the number of source tracks (the missed
    ones included), [missed_tracks] are the tracks whose search failed, in
    source order; the playlist was logged under the stripped URL, the cache
    holds the URL for 3600 seconds from now, and one playlist was counted. *)
Theorem X2_spotify_full_result (E : Env) (url : string) (data : PlaylistData)
    (w w' : World) (r : pydict) (evs : list Event) :
  cache_miss E url w ->
  AppleMusicParser_extract_data E (strip_qs E url) = Ok data ->
  generate_spotify_playlist E url w = (Returns r, w', evs) ->
  exists uid playlist_id playlist_url,
    sp_current_user E = Ok uid /\
    sp_user_playlist_create E uid (playlist_title data) description
    = Ok (playlist_id, playlist_url) /\
    r = full_result (PyStr playlist_url) (length (tracks data))
          (filter (fun track => is_missed (spotify_outcome E track) = true)
             (tracks data))
          "apple-music" "spotify" /\
    PlaylistObjectsCreate
      (Playlist.mk (playlist_title data) (playlist_artwork_url data)
         playlist_url (strip_qs E url) (playlist_creator data)) ∈ evs /\
    cache w'
    = <[strip_qs E url := (playlist_url, (now w + 3600)%Z)]> (cache w) /\
    now w' = now w /\
    playlist_counter w' = S (playlist_counter w).
Proof.
  intros Hmiss Hdata. rewrite (generate_spotify_playlist_miss _ _ _ Hmiss).
  destruct (spotify_conversion E _ w) as [[r2 w2] ev2] eqn:Hrun.
  intros [= -> -> <-]. unfold spotify_conversion in Hrun.
  apply bind_returns_inv in Hrun as ([] & w1 & ? & ? & Hclient & Hrun & ->).
  apply call_returns_inv in Hclient as (_ & -> & ->).
  apply bind_returns_inv in Hrun as (uid & w1 & ? & ? & Huser & Hrun & ->).
  apply call_returns_inv in Huser as (Huser & -> & ->).
  apply bind_returns_inv in Hrun as (data' & w1 & ? & ? & Hd & Hrun & ->).
  apply call_returns_inv in Hd as (Hd & -> & ->).
  rewrite Hdata in Hd. injection Hd as <-.
  apply bind_returns_inv in Hrun as (l & w1 & ? & ? & Hloop & Hrun & ->).
  rewrite spotify_loop_run in Hloop. injection Hloop as <- <- <-.
  pose proof (spotify_finish_returns _ _ _ _ _ _ _ _ _ Hrun)
    as (playlist_url & -> & Hcache & Hnow & Hcount).
  rewrite missed_tracks_foldl by apply spotify_missed_is_track.
  unfold spotify_finish in Hrun.
  apply bind_returns_inv in Hrun as (purl & w1 & ? & ? & Hsubmit & Hrun & ->).
  pose proof (frames_returns _ _ _ _ _ (frames_spotify_submit _ _ _ _) Hsubmit)
    as ->.
  apply bind_returns_inv in Hrun as ([] & w1 & ? & ? & Hrow & Hrun & ->).
  apply call_returns_inv in Hrow as (_ & -> & ->).
  apply bind_returns_inv in Hrun as ([] & w1 & ? & ? & Hsave & Hrun & ->).
  pose proof (frames_returns _ _ _ _ _ (frames_save_if_any _ _ _) Hsave) as ->.
  unfold bind, cache_set, incr_playlist_counter, logger_info, ret in Hrun.
  injection Hrun as Hurl _ _.
  assert (purl = playlist_url) as -> by congruence.
  destruct (spotify_submit_returns_url _ _ _ _ _ _ _ _ Hsubmit)
    as (playlist_id & Hcreate).
  exists uid, playlist_id, playlist_url.
  repeat split; try assumption.
  apply elem_of_cons. right.
  apply elem_of_app. right. rewrite !app_assoc. rewrite <- !app_assoc.
  simpl. do 3 (apply elem_of_cons; right).
  apply elem_of_app. right. apply elem_of_app. right.
  apply list_elem_of_here.
Qed.

Lemma X2_spotify_full_result_witness :
  playlist_counter
    (generate_spotify_playlist example_env example_url fresh_world).1.2 = 1 /\
  cache_live
    (generate_spotify_playlist example_env example_url fresh_world).1.2
    (cut_query example_url) = Some example_playlist_url.
Proof.
  destruct (X2_spotify_full_result example_env example_url example_data
              fresh_world
              (generate_spotify_playlist example_env example_url
                 fresh_world).1.2
              (full_result (PyStr example_playlist_url) 3 [song_b]
                 "apple-music" "spotify")
              (generate_spotify_playlist example_env example_url
                 fresh_world).2)
    as (uid & playlist_id & playlist_url & _ & Hcreate & _ & _ & Hcache
        & Hnow & Hcount).
  - right. reflexivity.
  - reflexivity.
  - reflexivity.
  - split; [exact Hcount |].
    injection Hcreate as _ <-. unfold cache_live.
    rewrite Hcache, Hnow. simpl. by rewrite lookup_insert_eq.
Defined.

Lemma frames_applemusic_on_error E rows r :
  frames (applemusic_on_error E rows r).
Proof.
  unfold applemusic_on_error. destruct r as [[]|]; through.
  apply frames_save_if_any.
Qed.

(** The end of [generate_applemusic_playlist]: either it raised before
    counting, or the playlist was counted and no retry is asked for. *)
Lemma applemusic_finish_world E title n l w r w' evs :
  applemusic_finish E title n l w = (r, w', evs) ->
  (w' = w /\ exists x, r = Raises x) \/
  (w' = counted w /\ forall exc countdown, r <> Raises (Retry exc countdown)).
Proof.
  unfold applemusic_finish, bind at 1.
  pose proof (frames_try_except _ _
                (frames_applemusic_submit E title (track_ids l))
                (frames_applemusic_on_error E (tracks_to_save l)) w) as Hw.
  destruct (try_except _ _ w) as [[[[]|x] w1] ev1]; simpl in Hw; subst w1.
  - pose proof (frames_save_if_any E "apple_music_id" (tracks_to_save l)
                  (counted w)) as Hsave.
    pose proof (no_retry_save_if_any E "apple_music_id" (tracks_to_save l)
                  (counted w)) as Hno.
    unfold bind, incr_playlist_counter, logger_info, ret.
    unfold counted in Hsave, Hno.
    destruct (save_if_any E _ _ _) as [[[[]|x] w2] ev2];
      simpl in Hsave, Hno; subst w2; intros [= <- <- _]; right;
      (split; [reflexivity |]).
    + intros exc countdown. discriminate.
    + intros exc countdown [= ->]. by destruct (Hno exc countdown).
  - intros [= <- <- _]. left. eauto.
Qed.

Lemma emits_applemusic_finish_no_cache E title n l :
  emits (fun e => is_cache_event e = false) (applemusic_finish E title n l).
Proof.
  unfold applemusic_finish, applemusic_submit. through; try reflexivity.
  - unfold applemusic_on_error. destruct r as [[]|]; through.
    by apply emits_save_if_any.
  - by apply emits_save_if_any.
Qed.

Lemma filter_none (p : Event -> bool) (evs : list Event) :
  Forall (fun e => p e = false) evs -> List.filter p evs = [].
Proof.
  induction 1 as [|e evs He _ IH]; [reflexivity |].
  simpl. by rewrite He.
Qed.

Lemma generate_applemusic_playlist_world E url token w r w' evs :
  generate_applemusic_playlist E url token w = (r, w', evs) ->
  (w' = w /\ exists x, r = Raises x) \/
  (w' = counted w /\ forall exc countdown, r <> Raises (Retry exc countdown)).
Proof.
  unfold generate_applemusic_playlist, bind at 1, logger_info.
  unfold bind at 1, call at 1.
  destruct (SpotifyParser_extract_data E _) as [data|e];
    [| intros [= <- <- _]; left; eauto].
  unfold bind at 1, call at 1.
  destruct (get_applemusic_client E) as [[]|e];
    [| intros [= <- <- _]; left; eauto].
  unfold bind at 1. rewrite applemusic_loop_run.
  destruct (applemusic_finish E _ _ _ w) as [[r2 w2] ev2] eqn:Hfinish.
  intros [= <- <- _]. by eapply applemusic_finish_world.
Qed.

Lemma emits_generate_applemusic_playlist_no_cache E url token :
  emits (fun e => is_cache_event e = false)
    (generate_applemusic_playlist E url token).
Proof.
  unfold generate_applemusic_playlist. through; try reflexivity.
  - apply emits_applemusic_loop; reflexivity.
  - apply emits_applemusic_finish_no_cache.
Qed.

(** X3. [generate_applemusic_playlist] never reads or writes the cache and
    counts at most one playlist: the cache and the clock are as before
    however the run ends, a run that returns has counted exactly one
    playlist, and a run that asks for a retry has counted none. *)
Theorem X3_applemusic_world (E : Env) (url token : string) (w : World) :
  let run := generate_applemusic_playlist E url token w in
  List.filter is_cache_event run.2 = [] /\
  (run.1.2 = w \/ run.1.2 = counted w) /\
  (forall r, run.1.1 = Returns r -> run.1.2 = counted w) /\
  (forall exc countdown,
     run.1.1 = Raises (Retry exc countdown) -> run.1.2 = w).
Proof.
  cbv zeta. split.
  - apply filter_none, emits_generate_applemusic_playlist_no_cache.
  - destruct (generate_applemusic_playlist E url token w)
      as [[r w'] evs] eqn:Hrun.
    apply generate_applemusic_playlist_world in Hrun
      as [[-> [x ->]] | [-> Hno]]; simpl.
    + repeat split; try discriminate; by left.
    + repeat split; try (by right).
      intros exc countdown Hretry. by destruct (Hno exc countdown).
Qed.

Lemma X3_applemusic_world_witness :
  (generate_applemusic_playlist example_env example_url "token"
     cached_world).1.2 = counted cached_world /\
  (generate_applemusic_playlist failing_env example_url "token"
     fresh_world).1.2 = fresh_world.
Proof.
  split.
  - destruct (X3_applemusic_world example_env example_url "token"
                cached_world) as (_ & _ & Hreturns & _).
    eapply Hreturns. reflexivity.
  - destruct (X3_applemusic_world failing_env example_url "token"
                fresh_world) as (_ & _ & _ & Hretry).
    eapply Hretry. reflexivity.
Defined.

(** *** Replaying the cache *)

Lemma cache_live_same_entry w key u t :
  cache_live w key = Some u ->
  is_Some (cache_live (at_time t w) key) ->
  cache_live (at_time t w) key = Some u.
Proof.
  unfold cache_live, at_time. simpl.
  destruct (cache w !! key) as [[v expiry]|]; [| done].
  destruct (now w <? expiry)%Z; [| done]. intros [= ->].
  destruct (t <? expiry)%Z; [done |]. by intros [? [=]].
Qed.

(** After a run that returned, an entry for the URL that is still live
    holds the playlist URL of that run's result. *)
Lemma spotify_leaves_its_url E url w r w' evs t :
  DEBUG E = false ->
  generate_spotify_playlist E url w = (Returns r, w', evs) ->
  is_Some (cache_live (at_time t w') (strip_qs E url)) ->
  exists u,
    dict_get r "playlist_url" = Some (PyStr u) /\
    cache_live (at_time t w') (strip_qs E url) = Some u.
Proof.
  intros Hdebug Hrun Hlive.
  destruct (cache_live w (strip_qs E url)) as [u|] eqn:Hfirst.
  - rewrite (spotify_cached_run _ _ _ _ Hdebug Hfirst) in Hrun.
    injection Hrun as <- <- _. exists u. split; [reflexivity |].
    by apply cache_live_same_entry.
  - destruct (generate_spotify_playlist_miss_returns E url w r w' evs)
      as (u & n & missed & -> & Hcache & _); [by right | assumption |].
    exists u. split; [reflexivity |].
    unfold cache_live, at_time in *. simpl in *.
    rewrite Hcache, lookup_insert_eq in *.
    destruct (t <? now w + 3600)%Z; [done |]. by destruct Hlive as [? [=]].
Qed.

(** C3, as the code has it: the cache belongs to
    [generate_spotify_playlist].  In production mode a live entry for the
    stripped URL makes that task return the cached URL without any search.
    So after a conversion that returned, a second conversion of the same URL
    made while the entry it left or found is still live returns the same
    playlist URL, again without any search; the entry that a full conversion
    writes is live for 3600 seconds.  [generate_applemusic_playlist] neither
    reads nor writes the cache. *)
Theorem C3_cache_replay_towards_spotify (E : Env) (url token : string)
    (w : World) :
  (DEBUG E = false ->
   (forall u,
      cache_live w (strip_qs E url) = Some u ->
      generate_spotify_playlist E url w
      = (Returns (cached_result (PyStr u)), w,
         cache_hit_events (strip_qs E url)) /\
      List.filter is_search (generate_spotify_playlist E url w).2 = []) /\
   (forall r w' evs t,
      generate_spotify_playlist E url w = (Returns r, w', evs) ->
      is_Some (cache_live (at_time t w') (strip_qs E url)) ->
      exists u,
        dict_get r "playlist_url" = Some (PyStr u) /\
        generate_spotify_playlist E url (at_time t w')
        = (Returns (cached_result (PyStr u)), at_time t w',
           cache_hit_events (strip_qs E url)) /\
        List.filter is_search
          (generate_spotify_playlist E url (at_time t w')).2 = []) /\
   (forall r w' evs t,
      cache_live w (strip_qs E url) = None ->
      generate_spotify_playlist E url w = (Returns r, w', evs) ->
      (t < now w + 3600)%Z ->
      is_Some (cache_live (at_time t w') (strip_qs E url)))) /\
  (List.filter is_cache_event (generate_applemusic_playlist E url token w).2
   = [] /\
   cache (generate_applemusic_playlist E url token w).1.2 = cache w).
Proof.
  split.
  - intros Hdebug. split; [| split].
    + intros u Hlive. rewrite (spotify_cached_run _ _ _ _ Hdebug Hlive). done.
    + intros r w' evs t Hrun Hlive.
      destruct (spotify_leaves_its_url _ _ _ _ _ _ _ Hdebug Hrun Hlive)
        as (u & Hurl & Hu).
      exists u. split; [exact Hurl |].
      rewrite (spotify_cached_run E url (at_time t w') u Hdebug Hu). done.
    + intros r w' evs t Hnone Hrun Ht.
      destruct (generate_spotify_playlist_miss_returns E url w r w' evs)
        as (u & n & missed & _ & Hcache & _); [by right | assumption |].
      rewrite (cache_live_after_set _ _ _ _ _ Hcache Ht). by eexists.
  - split.
    + apply filter_none, emits_generate_applemusic_playlist_no_cache.
    + destruct (generate_applemusic_playlist E url token w)
        as [[r w'] evs] eqn:Hrun.
      by apply generate_applemusic_playlist_world in Hrun
        as [[-> _] | [-> _]].
Qed.

Lemma C3_cache_replay_witness :
  exists u,
    dict_get
      (full_result (PyStr example_playlist_url) 3 [song_b] "apple-music"
         "spotify") "playlist_url" = Some (PyStr u) /\
    (generate_spotify_playlist example_env example_url
       (at_time 1800
          (generate_spotify_playlist example_env example_url
             fresh_world).1.2)).1.1
    = Returns (cached_result (PyStr u)).
Proof.
  destruct (C3_cache_replay_towards_spotify example_env example_url "token"
              fresh_world) as [Hspotify _].
  destruct (Hspotify eq_refl) as (_ & Hreplay & Hlives).
  destruct (Hreplay
              (full_result (PyStr example_playlist_url) 3 [song_b]
                 "apple-music" "spotify")
              (generate_spotify_playlist example_env example_url
                 fresh_world).1.2
              (generate_spotify_playlist example_env example_url
                 fresh_world).2
              1800%Z)
    as (u & Hu & Hrun & _).
  - reflexivity.
  - eapply Hlives; [reflexivity | reflexivity | reflexivity].
  - exists u. split; [exact Hu |]. by rewrite Hrun.
Defined.

(** *** A mapping store that fails for good *)

Lemma save_if_any_raises E match_field rows w e :
  rows <> [] ->
  Track_objects_bulk_update_or_create E rows match_field = Err e ->
  e <> IntegrityError ->
  save_if_any E match_field rows w
  = (Raises (Exn e), w, [BulkUpdateOrCreate rows match_field]).
Proof.
  intros Hrows Hstore He.
  unfold save_if_any, save_or_update_tracks, try_except, call.
  destruct rows as [|row rows]; [done |]. simpl. rewrite Hstore.
  destruct e; try reflexivity. done.
Qed.

(** X4. The mapping write is best effort for integrity conflicts only.
    When there are rows to write and the store raises anything else, both
    tasks raise that exception although the destination playlist exists:
    [generate_spotify_playlist] then has cached nothing and counted nothing,
    [generate_applemusic_playlist] has already counted the playlist. *)
Theorem X4_store_failure_fails_the_task (E : Env) (url token uid : string)
    (data : PlaylistData) (w : World) (e : exn) :
  e <> IntegrityError ->
  (forall playlist_url w1 ev1,
     cache_miss E url w ->
     get_spotify_client E = Ok tt ->
     sp_current_user E = Ok uid ->
     AppleMusicParser_extract_data E (strip_qs E url) = Ok data ->
     tracks_to_save (spotify_locals E data) <> [] ->
     spotify_submit E uid (playlist_title data)
       (track_ids (spotify_locals E data)) w
     = (Returns playlist_url, w1, ev1) ->
     Playlist_objects_create E
       (Playlist.mk (playlist_title data) (playlist_artwork_url data)
          playlist_url (strip_qs E url) (playlist_creator data)) = Ok tt ->
     Track_objects_bulk_update_or_create E
       (tracks_to_save (spotify_locals E data)) "spotify_id" = Err e ->
     exists evs,
       generate_spotify_playlist E url w = (Raises (Exn e), w, evs)) /\
  (forall w1 ev1,
     SpotifyParser_extract_data E (strip_qs E url) = Ok data ->
     get_applemusic_client E = Ok tt ->
     tracks_to_save (applemusic_locals E data) <> [] ->
     applemusic_submit E (title_or_untitled data)
       (track_ids (applemusic_locals E data)) w
     = (Returns tt, w1, ev1) ->
     Track_objects_bulk_update_or_create E
       (tracks_to_save (applemusic_locals E data)) "apple_music_id" = Err e ->
     exists evs,
       generate_applemusic_playlist E url token w
       = (Raises (Exn e), counted w, evs)).
Proof.
  intros He. split.
  - intros playlist_url w1 ev1 Hmiss Hclient Huser Hdata Hrows Hsubmit Hrow
      Hstore.
    pose proof (frames_returns _ _ _ _ _ (frames_spotify_submit _ _ _ _)
                  Hsubmit) as ->.
    rewrite (generate_spotify_playlist_miss _ _ _ Hmiss).
    rewrite (spotify_conversion_run _ _ _ _ _ Hclient Huser Hdata).
    unfold spotify_finish. cbv zeta.
    erewrite bind_returns by exact Hsubmit.
    erewrite bind_returns by (apply call_ok; exact Hrow).
    unfold bind at 1.
    rewrite (save_if_any_raises _ _ _ _ _ Hrows Hstore He).
    eauto.
  - intros w1 ev1 Hdata Hclient Hrows Hsubmit Hstore.
    pose proof (frames_returns _ _ _ _ _ (frames_applemusic_submit _ _ _)
                  Hsubmit) as ->.
    rewrite (generate_applemusic_playlist_run _ _ _ _ _ Hdata Hclient).
    unfold applemusic_finish.
    unfold bind at 1, try_except. rewrite Hsubmit.
    unfold bind at 1, incr_playlist_counter. fold (counted w).
    unfold bind at 1.
    rewrite (save_if_any_raises _ _ _ _ _ Hrows Hstore He).
    eauto.
Qed.

Lemma X4_store_failure_witness :
  (exists evs,
     generate_spotify_playlist broken_store_env example_url fresh_world
     = (Raises (Exn (Exception "database is down")), fresh_world, evs)) /\
  (exists evs,
     generate_applemusic_playlist broken_store_env example_url "token"
       fresh_world
     = (Raises (Exn (Exception "database is down")), counted fresh_world,
        evs)).
Proof.
  destruct (X4_store_failure_fails_the_task broken_store_env example_url
              "token" "me" example_data fresh_world
              (Exception "database is down")) as [Hspotify Happlemusic].
  - discriminate.
  - split.
    + eapply (Hspotify example_playlist_url fresh_world); try reflexivity.
      * right. reflexivity.
      * discriminate.
    + eapply (Happlemusic fresh_world); try reflexivity. discriminate.
Defined.

(** *** What is submitted and what is saved *)

Section Rows.
Variable outcome_of : SourceTrack.t -> MatchOutcome.

Lemma ids_of_rows (g : Track.t -> string) (tracks : list SourceTrack.t) :
  (forall track i row, outcome_of track = Matched i row -> i = g row) ->
  omap matched_id (map outcome_of tracks)
  = map g (omap matched_row (map outcome_of tracks)).
Proof.
  intros Hg. induction tracks as [|track tracks IH]; [reflexivity |].
  csimpl. destruct (outcome_of track) as [i row|track'] eqn:Ho; csimpl.
  - by rewrite (Hg _ _ _ Ho), IH.
  - exact IH.
Qed.

Lemma rows_from_tracks (Q : SourceTrack.t -> Track.t -> Prop)
    (tracks : list SourceTrack.t) (row : Track.t) :
  (forall track i row, outcome_of track = Matched i row -> Q track row) ->
  row ∈ omap matched_row (map outcome_of tracks) ->
  exists track, track ∈ tracks /\ Q track row.
Proof.
  intros HQ. induction tracks as [|track tracks IH]; csimpl;
    [by intros ?%elem_of_nil |].
  destruct (outcome_of track) as [i row'|track'] eqn:Ho; csimpl.
  - intros [-> | Hin]%elem_of_cons.
    + exists track. split; [apply list_elem_of_here | by eapply HQ].
    + destruct (IH Hin) as (t & Ht & ?). exists t.
      split; [by apply list_elem_of_further | done].
  - intros Hin. destruct (IH Hin) as (t & Ht & ?). exists t.
    split; [by apply list_elem_of_further | done].
Qed.
End Rows.

(** X6. What is submitted is what is saved: after either loop the matched
    ids are, in order, those of the mapping rows (towards Spotify as
    [spotify:track:] URIs of the rows' Spotify ids), and every row carries
    the name, the id and all the artists of a source track, joined by
    commas, however few artists the query used. *)
Theorem X6_rows_match_ids (E : Env) (tracks : list SourceTrack.t) (w : World) :
  (exists l evs,
     spotify_loop E (length tracks) 0 tracks no_locals w = (Returns l, w, evs)
     /\ track_ids l = map spotify_uri (tracks_to_save l)
     /\ forall row,
          row ∈ tracks_to_save l ->
          exists track,
            track ∈ tracks /\
            row = Track.mk (SourceTrack.name track)
                    (String.concat "," (SourceTrack.artists track))
                    (SourceTrack.id track) (Track.spotify_id row)) /\
  (exists l evs,
     applemusic_loop E (length tracks) 0 tracks no_locals w
       = (Returns l, w, evs)
     /\ track_ids l = map Track.apple_music_id (tracks_to_save l)
     /\ forall row,
          row ∈ tracks_to_save l ->
          exists track,
            track ∈ tracks /\
            row = Track.mk (SourceTrack.name track)
                    (String.concat "," (SourceTrack.artists track))
                    (Track.apple_music_id row) (SourceTrack.id track)).
Proof.
  split; eexists _, _.
  - split; [apply spotify_loop_run |].
    destruct (foldl_record (map (spotify_outcome E) tracks) no_locals)
      as (-> & -> & _). simpl. split.
    + apply ids_of_rows. intros track i row. unfold spotify_outcome.
      destruct (sp_search E _) as [[|? ?]|?]; intros [= <- <-] || intros [=].
      reflexivity.
    + intros row.
      apply (rows_from_tracks _ (fun track row =>
               row = Track.mk (SourceTrack.name track)
                       (String.concat "," (SourceTrack.artists track))
                       (SourceTrack.id track) (Track.spotify_id row))).
      intros track i row'. unfold spotify_outcome.
      destruct (sp_search E _) as [[|? ?]|?]; intros [= <- <-] || intros [=].
      reflexivity.
  - split; [apply applemusic_loop_run |].
    destruct (foldl_record (map (applemusic_outcome E) tracks) no_locals)
      as (-> & -> & _). simpl. split.
    + apply ids_of_rows. intros track i row. unfold applemusic_outcome.
      destruct (SourceTrack.artists track); [intros [=] |].
      destruct (am_search E _) as [[|? ?]|?]; intros [= <- <-] || intros [=].
      reflexivity.
    + intros row.
      apply (rows_from_tracks _ (fun track row =>
               row = Track.mk (SourceTrack.name track)
                       (String.concat "," (SourceTrack.artists track))
                       (Track.apple_music_id row) (SourceTrack.id track))).
      intros track i row'. unfold applemusic_outcome.
      destruct (SourceTrack.artists track) eqn:Hartists; [intros [=] |].
      destruct (am_search E _) as [[|? ?]|?]; intros [= <- <-] || intros [=].
      reflexivity.
Qed.

Lemma X6_rows_match_ids_witness :
  exists l evs,
    spotify_loop example_env 3 0 [song_a; song_b; song_c] no_locals
      fresh_world = (Returns l, fresh_world, evs) /\
    track_ids l = map spotify_uri (tracks_to_save l) /\
    Track.mk "Song C" "" "id-c" "c1" ∈ tracks_to_save l.
Proof.
  destruct (X6_rows_match_ids example_env [song_a; song_b; song_c]
              fresh_world) as [(l & evs & Hrun & Hids & Hrows) _].
  exists l, evs. split; [exact Hrun |]. split; [exact Hids |].
  rewrite spotify_loop_run in Hrun. injection Hrun as <- _.
  apply list_elem_of_further, list_elem_of_here.
Defined.

(** *** The events of the part of a task that follows its loop *)

Lemma emits_bind_call {A B} (P : Event -> Prop) ev (r : reply A)
    (f : A -> M B) :
  P ev -> (forall a, r = Ok a -> emits P (f a)) ->
  emits P (bind (call ev r) f).
Proof.
  intros Hev Hf w. unfold bind, call. destruct r as [a|e]; simpl.
  - specialize (Hf a eq_refl w). destruct (f a w) as [[r2 w2] ev2].
    by constructor.
  - by repeat constructor.
Qed.

Lemma emits_bind_ret {A B} (P : Event -> Prop) (a : A) (f : A -> M B) :
  emits P (f a) -> emits P (bind (ret a) f).
Proof.
  intros Hf w. unfold bind, ret. specialize (Hf w).
  by destruct (f a w) as [[r2 w2] ev2].
Qed.

Lemma emits_bind_raise {A B} (P : Event -> Prop) r (f : A -> M B) :
  emits P (bind (raise r) f).
Proof. intros w. constructor. Qed.

Lemma emits_save_if_any_rows (P : Event -> Prop) E match_field rows :
  (rows <> [] -> P (BulkUpdateOrCreate rows match_field)) ->
  emits P (save_if_any E match_field rows).
Proof.
  intros H. destruct rows as [|row rows].
  - unfold save_if_any. simpl. apply emits_ret.
  - by apply emits_save_if_any, H.
Qed.

Lemma emits_spotify_submit (P : Event -> Prop) E uid title ids :
  P (SpUserPlaylistCreate uid title description) ->
  (forall playlist_id playlist_url items,
     sp_user_playlist_create E uid title description
     = Ok (playlist_id, playlist_url) ->
     P (SpPlaylistAddItems playlist_id items)) ->
  emits P (spotify_submit E uid title ids).
Proof.
  intros Hcreate Hadd. unfold spotify_submit.
  apply emits_bind_call; [assumption |]. intros [pid purl] Hc. cbn [fst snd].
  through; by eapply Hadd.
Qed.

Lemma emits_applemusic_submit (P : Event -> Prop) E title ids :
  (forall items, P (AmUserPlaylistCreate title description items)) ->
  (forall playlist_id chunk,
     am_user_playlist_create E title description (take 100 ids)
     = Ok (Some playlist_id) ->
     P (AmUserPlaylistAddTracks playlist_id chunk)) ->
  emits P (applemusic_submit E title ids).
Proof.
  intros Hcreate Hadd. unfold applemusic_submit. cbv zeta.
  destruct (100 <? length ids).
  - apply emits_bind_call; [apply Hcreate |]. intros [pid|] Hc.
    + apply emits_bind_ret. through. by apply Hadd.
    + apply emits_bind_raise.
  - through. apply Hcreate.
Qed.

Lemma emits_spotify_finish (P : Event -> Prop) E url uid data l :
  P (SpUserPlaylistCreate uid (playlist_title data) description) ->
  (forall playlist_id items, P (SpPlaylistAddItems playlist_id items)) ->
  (forall row, P (PlaylistObjectsCreate row)) ->
  (tracks_to_save l <> [] ->
   P (BulkUpdateOrCreate (tracks_to_save l) "spotify_id")) ->
  (forall value, P (CacheSet url value 3600)) ->
  P IncrPlaylistCounter ->
  (forall msg, P (LoggerInfo msg)) ->
  emits P (spotify_finish E url uid data l).
Proof.
  intros Hcreate Hadd Hrow Hwrite Hset Hincr Hlog.
  unfold spotify_finish. through; try done.
  - apply emits_spotify_submit; auto.
  - by apply emits_save_if_any_rows.
Qed.

Lemma emits_applemusic_finish (P : Event -> Prop) E title n l :
  (forall items, P (AmUserPlaylistCreate title description items)) ->
  (forall playlist_id chunk, P (AmUserPlaylistAddTracks playlist_id chunk)) ->
  (tracks_to_save l <> [] ->
   P (BulkUpdateOrCreate (tracks_to_save l) "apple_music_id")) ->
  P IncrPlaylistCounter ->
  (forall msg, P (LoggerInfo msg)) ->
  emits P (applemusic_finish E title n l).
Proof.
  intros Hcreate Hadd Hwrite Hincr Hlog.
  unfold applemusic_finish. through; try done.
  - apply emits_applemusic_submit; auto.
  - unfold applemusic_on_error. destruct r as [[]|]; through.
    by apply emits_save_if_any_rows.
  - by apply emits_save_if_any_rows.
Qed.

(** *** Retrying *)

Lemma applemusic_finish_on_5xx_no_rows E title n l w status w1 ev1 :
  applemusic_submit E title (track_ids l) w
    = (Raises (Exn (HTTPError status)), w1, ev1) ->
  (500 <= status)%Z ->
  tracks_to_save l = [] ->
  applemusic_finish E title n l w
  = (Raises (Retry (HTTPError status) 30), w,
     ev1 ++ mapping_write "apple_music_id" (tracks_to_save l)).
Proof.
  intros Hsubmit Hstatus Hrows.
  pose proof (frames_applemusic_submit E title (track_ids l) w) as Hw.
  rewrite Hsubmit in Hw. simpl in Hw. subst w1.
  unfold applemusic_finish, bind at 1, try_except. rewrite Hsubmit.
  unfold applemusic_on_error.
  rewrite (proj2 (Z.leb_le _ _) Hstatus), Hrows.
  reflexivity.
Qed.

Lemma applemusic_finish_on_5xx_store_down E title n l w status w1 ev1 e :
  applemusic_submit E title (track_ids l) w
    = (Raises (Exn (HTTPError status)), w1, ev1) ->
  (500 <= status)%Z ->
  tracks_to_save l <> [] ->
  Track_objects_bulk_update_or_create E (tracks_to_save l) "apple_music_id"
    = Err e ->
  e <> IntegrityError ->
  applemusic_finish E title n l w
  = (Raises (Exn e), w,
     ev1 ++ [BulkUpdateOrCreate (tracks_to_save l) "apple_music_id"]).
Proof.
  intros Hsubmit Hstatus Hrows Hstore He.
  pose proof (frames_applemusic_submit E title (track_ids l) w) as Hw.
  rewrite Hsubmit in Hw. simpl in Hw. subst w1.
  unfold applemusic_finish, bind at 1, try_except. rewrite Hsubmit.
  unfold applemusic_on_error.
  rewrite (proj2 (Z.leb_le _ _) Hstatus).
  unfold bind at 1. by rewrite (save_if_any_raises _ _ _ _ _ Hrows Hstore He).
Qed.

Lemma spotify_submission_error_is_fatal E url uid data w x w1 ev1 :
  cache_miss E url w ->
  get_spotify_client E = Ok tt ->
  sp_current_user E = Ok uid ->
  AppleMusicParser_extract_data E (strip_qs E url) = Ok data ->
  spotify_submit E uid (playlist_title data)
    (track_ids (spotify_locals E data)) w = (Raises x, w1, ev1) ->
  (generate_spotify_playlist E url w).1 = (Raises x, w) /\
  List.filter is_mapping_write (generate_spotify_playlist E url w).2 = [].
Proof.
  intros Hmiss Hclient Huser Hdata Hsubmit.
  pose proof (emits_spotify_submit (fun e => is_mapping_write e = false) E uid
                (playlist_title data) (track_ids (spotify_locals E data))
                eq_refl (fun _ _ _ _ => eq_refl) w) as Hquiet.
  pose proof (frames_spotify_submit E uid (playlist_title data)
                (track_ids (spotify_locals E data)) w) as Hw.
  rewrite Hsubmit in Hw, Hquiet. simpl in Hw, Hquiet. subst w1.
  assert (Hrun :
    generate_spotify_playlist E url w
    = (Raises x, w,
       LoggerInfo (GeneratingSpotify (strip_qs E url)) ::
       (if DEBUG E then [] else [CacheContains (strip_qs E url)]) ++
       [GetSpotifyClient; SpCurrentUser; AppleMusicParse (strip_qs E url)] ++
       loop_events (spotify_events E) (length (tracks data)) 0 (tracks data)
       ++ ev1)).
  { rewrite (generate_spotify_playlist_miss _ _ _ Hmiss).
    rewrite (spotify_conversion_run _ _ _ _ _ Hclient Huser Hdata).
    unfold spotify_finish. cbv zeta. unfold bind at 1.
    by rewrite Hsubmit. }
  rewrite Hrun. split; [reflexivity |]. cbn [snd].
  change (LoggerInfo ?m :: ?evs) with ([LoggerInfo m] ++ evs).
  rewrite !List.filter_app, (filter_none _ _ Hquiet).
  rewrite (filter_none is_mapping_write (loop_events _ _ _ _)).
  - by destruct (DEBUG E).
  - apply Forall_loop_events; [by repeat constructor | done].
Qed.

(** C4, as the code has it: only [generate_applemusic_playlist] retries.
    There, when batch submission raises an HTTP error with a status of 500 or
    more, the task writes the mapping rows matched so far, when there are
    any, and then asks for a retry in 30 seconds; an integrity conflict of
    that write is swallowed, any other exception of that write is raised in
    place of the retry.  Any other exception of batch submission leaves the
    task as it is, with no mapping write and no retry, and a retry is asked
    for in no other case.  [generate_spotify_playlist] never asks for a
    retry: an exception of its batch submission, whatever its status, leaves
    the task as it is, with no mapping write. *)
Theorem C4_retry_towards_applemusic (E : Env) (url token uid : string)
    (data : PlaylistData) (w : World) :
  let l := applemusic_locals E data in
  let submit := applemusic_submit E (title_or_untitled data) (track_ids l) in
  (no_retry (generate_spotify_playlist E url) /\
   (forall x w1 ev1,
      cache_miss E url w ->
      get_spotify_client E = Ok tt ->
      sp_current_user E = Ok uid ->
      AppleMusicParser_extract_data E (strip_qs E url) = Ok data ->
      spotify_submit E uid (playlist_title data)
        (track_ids (spotify_locals E data)) w = (Raises x, w1, ev1) ->
      (generate_spotify_playlist E url w).1 = (Raises x, w) /\
      List.filter is_mapping_write (generate_spotify_playlist E url w).2
      = [])) /\
  (SpotifyParser_extract_data E (strip_qs E url) = Ok data ->
   get_applemusic_client E = Ok tt ->
   (forall status w1 ev1,
      submit w = (Raises (Exn (HTTPError status)), w1, ev1) ->
      (500 <= status)%Z ->
      (tracks_to_save l = [] \/
       store_takes_or_conflicts E "apple_music_id" (tracks_to_save l) ->
       generate_applemusic_playlist E url token w
       = (Raises (Retry (HTTPError status) 30), w,
          applemusic_prefix E url data ++ ev1 ++
          mapping_write "apple_music_id" (tracks_to_save l))) /\
      (forall e,
         tracks_to_save l <> [] ->
         Track_objects_bulk_update_or_create E (tracks_to_save l)
           "apple_music_id" = Err e ->
         e <> IntegrityError ->
         generate_applemusic_playlist E url token w
         = (Raises (Exn e), w,
            applemusic_prefix E url data ++ ev1 ++
            [BulkUpdateOrCreate (tracks_to_save l) "apple_music_id"]))) /\
   (forall e w1 ev1,
      submit w = (Raises (Exn e), w1, ev1) ->
      (forall status, e = HTTPError status -> (status < 500)%Z) ->
      generate_applemusic_playlist E url token w
      = (Raises (Exn e), w, applemusic_prefix E url data ++ ev1)) /\
   (forall exc countdown w' evs,
      generate_applemusic_playlist E url token w
      = (Raises (Retry exc countdown), w', evs) ->
      exists status w1 ev1,
        submit w = (Raises (Exn (HTTPError status)), w1, ev1) /\
        (500 <= status)%Z /\ exc = HTTPError status /\ countdown = 30%Z)).
Proof.
  intros l submit. split.
  - split; [apply no_retry_generate_spotify_playlist |].
    intros x w1 ev1. apply spotify_submission_error_is_fatal.
  - intros Hdata Hclient. split; [| split].
    + intros status w1 ev1 Hsubmit Hstatus. split.
      * intros [Hrows | Hstore];
          rewrite (generate_applemusic_playlist_run _ _ _ _ _ Hdata Hclient).
        -- rewrite (applemusic_finish_on_5xx_no_rows _ _ _ _ _ _ _ _
                      Hsubmit Hstatus Hrows).
           unfold applemusic_prefix. by rewrite <- !app_assoc.
        -- rewrite (applemusic_finish_on_5xx _ _ _ _ _ _ _ _
                      Hsubmit Hstatus Hstore).
           unfold applemusic_prefix. by rewrite <- !app_assoc.
      * intros e Hrows Hstore He.
        rewrite (generate_applemusic_playlist_run _ _ _ _ _ Hdata Hclient).
        rewrite (applemusic_finish_on_5xx_store_down _ _ _ _ _ _ _ _ _
                   Hsubmit Hstatus Hrows Hstore He).
        unfold applemusic_prefix. by rewrite <- !app_assoc.
    + intros e w1 ev1 Hsubmit Hlow.
      rewrite (generate_applemusic_playlist_run _ _ _ _ _ Hdata Hclient).
      rewrite (applemusic_finish_on_other _ _ _ _ _ _ _ _ Hsubmit Hlow).
      unfold applemusic_prefix. by rewrite <- !app_assoc.
    + intros exc countdown w' evs.
      rewrite (generate_applemusic_playlist_run _ _ _ _ _ Hdata Hclient).
      destruct (applemusic_finish E _ _ _ w) as [[r w2] ev2] eqn:Hfinish.
      intros [= -> -> _].
      by eapply applemusic_finish_retry_inv.
Qed.

Lemma C4_retry_witness :
  generate_applemusic_playlist failing_env example_url "token" fresh_world
  = (Raises (Retry (HTTPError 503) 30), fresh_world,
     applemusic_prefix failing_env example_url example_data ++
     [AmUserPlaylistCreate "Mix" description ["a1"]] ++
     [BulkUpdateOrCreate
        [Track.mk "Song A" "Artist1,Artist2,Artist3" "a1" "id-a"]
        "apple_music_id"]) /\
  (generate_applemusic_playlist failing_broken_env example_url "token"
     fresh_world).1
  = (Raises (Exn (Exception "database is down")), fresh_world) /\
  (generate_spotify_playlist failing_env example_url fresh_world).1
  = (Raises (Exn (SpotifyException 503)), fresh_world).
Proof.
  split; [| split].
  - destruct (C4_retry_towards_applemusic failing_env example_url "token"
                "me" example_data fresh_world) as [_ Hretry].
    destruct Hretry as (H5xx & _); [reflexivity | reflexivity |].
    destruct (H5xx 503%Z fresh_world
                [AmUserPlaylistCreate "Mix" description ["a1"]])
      as [Hwrites _]; [reflexivity | lia |].
    apply Hwrites. right. right. reflexivity.
  - destruct (C4_retry_towards_applemusic failing_broken_env example_url
                "token" "me" example_data fresh_world) as [_ Hretry].
    destruct Hretry as (H5xx & _); [reflexivity | reflexivity |].
    destruct (H5xx 503%Z fresh_world
                [AmUserPlaylistCreate "Mix" description ["a1"]])
      as [_ Hdown]; [reflexivity | lia |].
    rewrite (Hdown (Exception "database is down"));
      [reflexivity | discriminate | reflexivity | discriminate].
  - destruct (C4_retry_towards_applemusic failing_env example_url "token"
                "me" example_data fresh_world) as [[_ Hfatal] _].
    eapply Hfatal; try reflexivity. by right.
Defined.

(** C4 as stated fails twice.  Towards Spotify: when adding the tracks
    answers 503, [generate_spotify_playlist] raises that error as it is, asks
    for no retry, and has written no mapping row.  Towards Apple Music: when
    playlist creation answers 503 and the mapping store is down, the task
    raises the exception of the store and asks for no retry. *)
Lemma C4_retry_counterexample :
  ((generate_spotify_playlist failing_env example_url fresh_world).1.1
   = Raises (Exn (SpotifyException 503)) /\
   List.filter is_mapping_write
     (generate_spotify_playlist failing_env example_url fresh_world).2 = [] /\
   List.filter is_append
     (generate_spotify_playlist failing_env example_url fresh_world).2
   = [SpPlaylistAddItems "p1" ["spotify:track:a1"; "spotify:track:c1"]] /\
   ~ exists exc countdown,
       (generate_spotify_playlist failing_env example_url fresh_world).1.1
       = Raises (Retry exc countdown)) /\
  (List.filter is_creation
     (generate_applemusic_playlist failing_broken_env example_url "token"
        fresh_world).2
   = [AmUserPlaylistCreate "Mix" description ["a1"]] /\
   am_user_playlist_create failing_broken_env "Mix" description ["a1"]
   = Err (HTTPError 503) /\
   (generate_applemusic_playlist failing_broken_env example_url "token"
      fresh_world).1.1
   = Raises (Exn (Exception "database is down")) /\
   ~ exists exc countdown,
       (generate_applemusic_playlist failing_broken_env example_url "token"
          fresh_world).1.1
       = Raises (Retry exc countdown)).
Proof.
  split; repeat split; try reflexivity.
  - intros (exc & countdown & H). vm_compute in H. discriminate.
  - intros (exc & countdown & H). vm_compute in H. discriminate.
Qed.

(** X5. Whatever the source playlist is called, [generate_applemusic_playlist]
    never creates a playlist without a name: every creation call it makes is
    named after the parsed playlist, or "Untitled" when that title is empty,
    and carries the fixed description. *)
Theorem X5_applemusic_playlist_is_named (E : Env) (url token : string)
    (w : World) :
  Forall (proper_creation E url) (generate_applemusic_playlist E url token w).2.
Proof.
  assert (Hemits : emits (proper_creation E url)
                     (generate_applemusic_playlist E url token)).
  { unfold generate_applemusic_playlist. cbv zeta.
    apply emits_bind; [by apply emits_logger_info | intros _].
    apply emits_bind_call; [exact I | intros data Hdata].
    apply emits_bind; [by apply emits_call | intros _].
    apply emits_bind; [by apply emits_applemusic_loop | intros l].
    apply emits_applemusic_finish; try done.
    intros items. split; [| split; [reflexivity | by exists data]].
    unfold title_or_untitled.
    destruct (String.eqb_spec (playlist_title data) ""); [discriminate | done]. }
  apply Hemits.
Qed.

(** X12. Tracks are only ever added to the playlist just created: every
    append call of a batch submission names the playlist id that the
    creation call of the same submission answered (and towards Apple Music
    there is an append call only when more than 100 ids were matched). *)
Theorem X12_appends_go_to_the_created_playlist (E : Env)
    (uid title : string) (ids : list string) (w : World) :
  Forall (adds_to_created_spotify E uid title)
    (spotify_submit E uid title ids w).2 /\
  Forall (adds_to_created_applemusic E title ids)
    (applemusic_submit E title ids w).2.
Proof.
  split.
  - apply emits_spotify_submit; [exact I |].
    intros playlist_id playlist_url items Hcreate. by exists playlist_url.
  - assert (Hemits : emits (adds_to_created_applemusic E title ids)
                       (applemusic_submit E title ids)).
    { unfold applemusic_submit. cbv zeta.
      destruct (100 <? length ids) eqn:Hlong.
      - apply Nat.ltb_lt in Hlong.
        apply emits_bind_call; [exact I |]. intros [pid|] Hc.
        + apply emits_bind_ret. through. by split.
        + apply emits_bind_raise.
      - through. exact I. }
    apply Hemits.
Qed.

(** *** Mapping writes *)

Lemma write_count_app evs1 evs2 :
  write_count (evs1 ++ evs2) = write_count evs1 + write_count evs2.
Proof. unfold write_count. by rewrite List.filter_app, length_app. Qed.

Lemma writes_none {A} (m : M A) :
  emits (fun e => is_mapping_write e = false) m -> writes_at_most 0 m.
Proof.
  intros Hm w. unfold write_count. by rewrite (filter_none _ _ (Hm w)).
Qed.

Lemma writes_bind {A B} (m : M A) (f : A -> M B) a b :
  writes_at_most a m -> (forall x, writes_at_most b (f x)) ->
  writes_at_most (a + b) (bind m f).
Proof.
  intros Hm Hf w. unfold bind. specialize (Hm w).
  destruct (m w) as [[[x|r] w1] ev1]; simpl in *; [| lia].
  specialize (Hf x w1). destruct (f x w1) as [[r2 w2] ev2]; simpl in *.
  rewrite write_count_app. lia.
Qed.

Lemma writes_save_if_any E match_field rows :
  writes_at_most 1 (save_if_any E match_field rows).
Proof.
  intros w. unfold save_if_any, save_or_update_tracks, try_except, call.
  destruct (0 <? length rows); [| unfold write_count; simpl; lia].
  destruct (Track_objects_bulk_update_or_create E rows match_field)
    as [[]|[]]; unfold write_count; simpl; lia.
Qed.

Lemma writes_spotify_finish E url uid data l :
  writes_at_most 1 (spotify_finish E url uid data l).
Proof.
  unfold spotify_finish. cbv zeta.
  apply (writes_bind _ _ 0 1);
    [apply writes_none, emits_spotify_submit; done | intros playlist_url].
  apply (writes_bind _ _ 0 1);
    [apply writes_none; by apply emits_call | intros _].
  apply (writes_bind _ _ 1 0); [apply writes_save_if_any | intros _].
  apply writes_none. through; reflexivity.
Qed.

Lemma writes_generate_spotify_playlist E url :
  writes_at_most 1 (generate_spotify_playlist E url).
Proof.
  assert (Hconversion : forall key, writes_at_most 1 (spotify_conversion E key)).
  { intros key. unfold spotify_conversion. cbv zeta.
    apply (writes_bind _ _ 0 1);
      [apply writes_none; by apply emits_call | intros _].
    apply (writes_bind _ _ 0 1);
      [apply writes_none; by apply emits_call | intros uid].
    apply (writes_bind _ _ 0 1);
      [apply writes_none; by apply emits_call | intros data].
    apply (writes_bind _ _ 0 1);
      [apply writes_none; by apply emits_spotify_loop | intros l].
    apply writes_spotify_finish. }
  unfold generate_spotify_playlist. cbv zeta.
  apply (writes_bind _ _ 0 1);
    [apply writes_none; by apply emits_logger_info | intros _].
  destruct (negb (DEBUG E)); [| apply Hconversion].
  apply (writes_bind _ _ 0 1);
    [apply writes_none; by apply emits_cache_contains | intros hit].
  destruct hit; [| apply Hconversion].
  intros w. unfold write_count. simpl. lia.
Qed.

(** The handler of a failed submission never returns, and writes once at
    most. *)
Lemma applemusic_on_error_raises E rows r w :
  exists x w' evs,
    applemusic_on_error E rows r w = (Raises x, w', evs) /\
    write_count evs <= 1.
Proof.
  unfold applemusic_on_error.
  assert (Hraise : exists x w' evs,
            raise (A:=unit) r w = (Raises x, w', evs) /\ write_count evs <= 1).
  { eexists _, _, _. split; [reflexivity | unfold write_count; simpl; lia]. }
  destruct r as [[status| | | | |]|]; try exact Hraise.
  destruct (500 <=? status)%Z; [| exact Hraise].
  unfold bind, raise.
  pose proof (writes_save_if_any E "apple_music_id" rows w) as Hsave.
  destruct (save_if_any E _ rows w) as [[[[]|x] w1] ev1]; simpl in Hsave.
  - eexists _, _, _. split; [reflexivity |]. rewrite app_nil_r. exact Hsave.
  - eexists _, _, _. split; [reflexivity | exact Hsave].
Qed.

Lemma writes_applemusic_finish E title n l :
  writes_at_most 1 (applemusic_finish E title n l).
Proof.
  intros w. unfold applemusic_finish, bind at 1, try_except.
  pose proof (writes_none _
                (emits_applemusic_submit
                   (fun e => is_mapping_write e = false) E title (track_ids l)
                   (fun _ => eq_refl) (fun _ _ _ => eq_refl)) w) as Hsubmit.
  destruct (applemusic_submit E title (track_ids l) w) as [[[[]|r] w1] ev1];
    simpl in Hsubmit.
  - assert (Hrest : writes_at_most 1
      (do _ <- incr_playlist_counter;
       do _ <- save_if_any E "apple_music_id" (tracks_to_save l);
       do _ <- logger_info (MissedReport (length (missed_tracks l)) n
                              (missed_tracks l));
       ret (full_result PyNone n (missed_tracks l) "spotify" "apple-music"))).
    { apply (writes_bind _ _ 0 1);
        [apply writes_none; by apply emits_incr_playlist_counter | intros _].
      apply (writes_bind _ _ 1 0); [apply writes_save_if_any | intros _].
      apply writes_none. through; reflexivity. }
    specialize (Hrest w1). unfold full_result in Hrest.
    destruct (bind incr_playlist_counter _ w1) as [[r2 w2] ev2].
    simpl in *. rewrite write_count_app. lia.
  - destruct (applemusic_on_error_raises E (tracks_to_save l) r w1)
      as (x & w2 & ev2 & -> & Hhandler).
    simpl. rewrite write_count_app. lia.
Qed.

Lemma writes_generate_applemusic_playlist E url token :
  writes_at_most 1 (generate_applemusic_playlist E url token).
Proof.
  unfold generate_applemusic_playlist. cbv zeta.
  apply (writes_bind _ _ 0 1);
    [apply writes_none; by apply emits_logger_info | intros _].
  apply (writes_bind _ _ 0 1);
    [apply writes_none; by apply emits_call | intros data].
  apply (writes_bind _ _ 0 1);
    [apply writes_none; by apply emits_call | intros _].
  apply (writes_bind _ _ 0 1);
    [apply writes_none; by apply emits_applemusic_loop | intros l].
  apply writes_applemusic_finish.
Qed.

Lemma proper_write_generate_spotify_playlist E url :
  emits (proper_write "spotify_id") (generate_spotify_playlist E url).
Proof.
  unfold generate_spotify_playlist, spotify_conversion. through; try exact I.
  - by apply emits_spotify_loop.
  - by apply emits_spotify_finish.
  - by apply emits_spotify_loop.
  - by apply emits_spotify_finish.
Qed.

Lemma proper_write_generate_applemusic_playlist E url token :
  emits (proper_write "apple_music_id")
    (generate_applemusic_playlist E url token).
Proof.
  unfold generate_applemusic_playlist. through; try exact I.
  - by apply emits_applemusic_loop.
  - by apply emits_applemusic_finish.
Qed.

(** X10. A run of either task writes to the mapping store once at most,
    also when a failed submission is answered by a write and a retry; a
    write always has rows, and it matches on [spotify_id] towards Spotify
    and on [apple_music_id] towards Apple Music. *)
Theorem X10_one_proper_mapping_write (E : Env) (url token : string)
    (w : World) :
  (write_count (generate_spotify_playlist E url w).2 <= 1 /\
   Forall (proper_write "spotify_id") (generate_spotify_playlist E url w).2) /\
  (write_count (generate_applemusic_playlist E url token w).2 <= 1 /\
   Forall (proper_write "apple_music_id")
     (generate_applemusic_playlist E url token w).2).
Proof.
  repeat split.
  - apply writes_generate_spotify_playlist.
  - apply proper_write_generate_spotify_playlist.
  - apply writes_generate_applemusic_playlist.
  - apply proper_write_generate_applemusic_playlist.
Qed.

(** *** Searches *)

Lemma searches_of_spotify_loop E n tracks : forall i,
  List.filter is_search (loop_events (spotify_events E) n i tracks)
  = map (fun track => SpSearch (spotify_query track) 1) tracks.
Proof.
  induction tracks as [|track rest IH]; intros i; [reflexivity |].
  simpl. by rewrite IH.
Qed.

Lemma searches_of_applemusic_loop E n tracks : forall i,
  List.filter is_search (loop_events (applemusic_events E) n i tracks)
  = omap applemusic_search_of tracks.
Proof.
  induction tracks as [|track rest IH]; intros i; [reflexivity |].
  csimpl. rewrite List.filter_app. simpl. rewrite IH.
  unfold applemusic_events, applemusic_search_of.
  by destruct (SourceTrack.artists track).
Qed.

(** X7. A conversion that reaches its loop searches once per track, in
    source order and with limit 1: towards Spotify for every source track,
    towards Apple Music for every source track that has an artist; nothing
    after the loop searches again. *)
Theorem X7_one_search_per_track (E : Env) (url token uid : string)
    (data : PlaylistData) (w : World) :
  (cache_miss E url w ->
   get_spotify_client E = Ok tt ->
   sp_current_user E = Ok uid ->
   AppleMusicParser_extract_data E (strip_qs E url) = Ok data ->
   List.filter is_search (generate_spotify_playlist E url w).2
   = map (fun track => SpSearch (spotify_query track) 1) (tracks data)) /\
  (SpotifyParser_extract_data E (strip_qs E url) = Ok data ->
   get_applemusic_client E = Ok tt ->
   List.filter is_search (generate_applemusic_playlist E url token w).2
   = omap applemusic_search_of (tracks data)).
Proof.
  split.
  - intros Hmiss Hclient Huser Hdata.
    rewrite (generate_spotify_playlist_miss _ _ _ Hmiss).
    rewrite (spotify_conversion_run _ _ _ _ _ Hclient Huser Hdata).
    pose proof (emits_spotify_finish (fun e => is_search e = false) E
                  (strip_qs E url) uid data (spotify_locals E data)
                  eq_refl (fun _ _ => eq_refl) (fun _ => eq_refl)
                  (fun _ => eq_refl) (fun _ => eq_refl) eq_refl
                  (fun _ => eq_refl) w) as Hrest.
    destruct (spotify_finish E _ uid data _ w) as [[r w2] ev2].
    cbn [snd] in *.
    change (LoggerInfo ?m :: ?evs) with ([LoggerInfo m] ++ evs).
    rewrite !List.filter_app, (filter_none _ _ Hrest), app_nil_r.
    rewrite searches_of_spotify_loop. by destruct (DEBUG E).
  - intros Hdata Hclient.
    rewrite (generate_applemusic_playlist_run _ _ _ _ _ Hdata Hclient).
    pose proof (emits_applemusic_finish (fun e => is_search e = false) E
                  (title_or_untitled data) (length (tracks data))
                  (applemusic_locals E data)
                  (fun _ => eq_refl) (fun _ _ => eq_refl) (fun _ => eq_refl)
                  eq_refl (fun _ => eq_refl) w) as Hrest.
    destruct (applemusic_finish E _ _ _ w) as [[r w2] ev2].
    cbn [snd] in *.
    rewrite !List.filter_app, (filter_none _ _ Hrest), app_nil_r.
    by rewrite searches_of_applemusic_loop.
Qed.

Lemma X7_one_search_per_track_witness :
  List.filter is_search
    (generate_spotify_playlist example_env example_url fresh_world).2
  = [SpSearch "Song A Artist1 Artist2" 1; SpSearch "Song B Artist4" 1;
     SpSearch "Song C " 1] /\
  List.filter is_search
    (generate_applemusic_playlist example_env example_url "token"
       fresh_world).2
  = [AmSearch "Song A Artist1" 1; AmSearch "Song B Artist4" 1].
Proof.
  destruct (X7_one_search_per_track example_env example_url "token" "me"
              example_data fresh_world) as [Hspotify Happlemusic].
  split.
  - rewrite Hspotify; [reflexivity | by right | reflexivity..].
  - rewrite Happlemusic; reflexivity.
Defined.

(** *** The URL *)

(** X8. Only the stripped URL matters: two URLs that [strip_qs] maps to the
    same URL give the same run of either task, result, world and events. *)
Theorem X8_only_the_stripped_url_matters (E : Env) (url1 url2 token : string)
    (w : World) :
  strip_qs E url1 = strip_qs E url2 ->
  generate_spotify_playlist E url1 w = generate_spotify_playlist E url2 w /\
  generate_applemusic_playlist E url1 token w
  = generate_applemusic_playlist E url2 token w.
Proof.
  intros Hstrip. unfold generate_spotify_playlist, generate_applemusic_playlist.
  cbv zeta. by rewrite Hstrip.
Qed.

Lemma X8_only_the_stripped_url_witness :
  generate_spotify_playlist example_env
    "https://music.example/playlist/1?x=1" fresh_world
  = generate_spotify_playlist example_env
      "https://music.example/playlist/1?utm=mail" fresh_world.
Proof.
  apply (X8_only_the_stripped_url_matters example_env _ _ "token" fresh_world).
  reflexivity.
Defined.

(** *** Debug mode *)

Lemma emits_spotify_conversion_no_cache_read E key :
  emits (fun e => is_cache_read e = false) (spotify_conversion E key).
Proof.
  unfold spotify_conversion. through; try reflexivity.
  - by apply emits_spotify_loop.
  - by apply emits_spotify_finish.
Qed.

(** X9. In debug mode [generate_spotify_playlist] never consults the
    cache, not even when it holds a live entry for the URL; but a run that
    returns still writes its playlist URL to the cache, where a later run in
    production mode finds it. *)
Theorem X9_debug_mode_skips_the_cache_read (E : Env) (url : string)
    (w : World) :
  DEBUG E = true ->
  List.filter is_cache_read (generate_spotify_playlist E url w).2 = [] /\
  (forall r w' evs,
     generate_spotify_playlist E url w = (Returns r, w', evs) ->
     exists playlist_url,
       dict_get r "playlist_url" = Some (PyStr playlist_url) /\
       cache_live w' (strip_qs E url) = Some playlist_url).
Proof.
  intros Hdebug. split.
  - rewrite generate_spotify_playlist_miss by (by left). rewrite Hdebug.
    pose proof (emits_spotify_conversion_no_cache_read E (strip_qs E url) w)
      as Hconversion.
    destruct (spotify_conversion E _ w) as [[r w2] ev2]. cbn [snd] in *.
    simpl. by apply filter_none.
  - intros r w' evs Hrun.
    destruct (generate_spotify_playlist_miss_returns E url w r w' evs)
      as (playlist_url & n & missed & -> & Hcache & Hnow & _);
      [by left | assumption |].
    exists playlist_url. split; [reflexivity |].
    unfold cache_live. rewrite Hcache, Hnow, lookup_insert_eq.
    by rewrite (proj2 (Z.ltb_lt _ _)) by lia.
Qed.

Lemma X9_debug_mode_witness :
  cache_live cached_world (cut_query example_url) = Some example_playlist_url /\
  List.filter is_cache_read
    (generate_spotify_playlist debug_env example_url cached_world).2 = [] /\
  exists playlist_url,
    cache_live
      (generate_spotify_playlist debug_env example_url cached_world).1.2
      (cut_query example_url) = Some playlist_url.
Proof.
  destruct (X9_debug_mode_skips_the_cache_read debug_env example_url
              cached_world eq_refl) as [Hreads Hwrites].
  split; [reflexivity |]. split; [exact Hreads |].
  destruct (Hwrites
              (full_result (PyStr "https://open.spotify.com/playlist/p2") 3
                 [song_b] "apple-music" "spotify")
              (generate_spotify_playlist debug_env example_url
                 cached_world).1.2
              (generate_spotify_playlist debug_env example_url
                 cached_world).2 eq_refl)
    as (playlist_url & _ & Hlive).
  by exists playlist_url.
Defined.

(** *** What batch submission sends *)

Lemma sent_app evs1 evs2 : sent (evs1 ++ evs2) = sent evs1 ++ sent evs2.
Proof. unfold sent. by rewrite map_app, concat_app. Qed.

Lemma sent_chunks (ev : list string -> Event) (chunks : list (list string)) :
  (forall chunk, items_of (ev chunk) = chunk) ->
  sent (map ev chunks) = concat chunks.
Proof.
  intros Hev. unfold sent. induction chunks as [|chunk chunks IH];
    [reflexivity |].
  simpl. by rewrite Hev, IH.
Qed.

Lemma sent_prefix evs1 evs2 :
  evs1 `prefix_of` evs2 -> sent evs1 `prefix_of` sent evs2.
Proof. intros [rest ->]. rewrite sent_app. by eexists. Qed.

Lemma for_each_events_prefix {A} (ev : A -> Event) (answer : A -> reply unit)
    (xs : list A) w :
  (for_each xs (fun x => call (ev x) (answer x)) w).2 `prefix_of` map ev xs.
Proof.
  induction xs as [|x xs IH]; simpl; [apply prefix_nil |].
  unfold bind, call at 1. destruct (answer x) as [[]|e]; simpl.
  - destruct (for_each xs _ w) as [[r w2] ev2]; simpl in *.
    by apply prefix_cons.
  - by apply prefix_cons, prefix_nil.
Qed.

Lemma concat_grouper (ids : list string) : concat (grouper 100 ids) = ids.
Proof. destruct (grouper_spec 100 ids) as (_ & _ & H); [lia | exact H]. Qed.

Lemma spotify_submit_sent E uid title ids w r w' evs :
  spotify_submit E uid title ids w = (r, w', evs) ->
  sent evs `prefix_of` ids /\
  (forall playlist_url, r = Returns playlist_url -> sent evs = ids).
Proof.
  unfold spotify_submit. unfold bind at 1, call at 1.
  destruct (sp_user_playlist_create E _ _ _) as [[playlist_id url]|e];
    [| intros [= <- _ <-]; split; [apply prefix_nil | intros ? [=]]].
  cbn [fst snd]. unfold bind.
  destruct (100 <? length ids).
  - pose proof (for_each_events_prefix
                  (fun chunk => SpPlaylistAddItems playlist_id chunk)
                  (fun chunk => sp_playlist_add_items E playlist_id chunk)
                  (grouper 100 ids) w) as Hprefix.
    destruct (for_each _ _ w) as [[[[]|x] w2] ev2] eqn:Hloop; simpl in Hprefix.
    + apply for_each_returns in Hloop as [_ ->]. unfold ret.
      intros [= <- _ <-].
      change (?e :: ?evs) with ([e] ++ evs).
      rewrite !sent_app, app_nil_r, sent_chunks, concat_grouper
        by reflexivity.
      unfold sent. simpl. done.
    + intros [= <- _ <-]. split; [| intros ? [=]].
      apply sent_prefix in Hprefix.
      rewrite sent_chunks, concat_grouper in Hprefix by reflexivity.
      change (?e :: ?evs) with ([e] ++ evs). rewrite sent_app.
      unfold sent at 1. simpl. exact Hprefix.
  - unfold call, ret. destruct (sp_playlist_add_items E _ _) as [[]|e];
      intros [= <- _ <-]; unfold sent; simpl; rewrite !app_nil_r;
      (split; [done | done || intros ? [=]]).
Qed.

Lemma applemusic_submit_sent E title ids w r w' evs :
  applemusic_submit E title ids w = (r, w', evs) ->
  sent evs `prefix_of` ids /\ (r = Returns tt -> sent evs = ids).
Proof.
  unfold applemusic_submit. cbv zeta.
  destruct (100 <? length ids).
  - unfold bind at 1, call at 1.
    destruct (am_user_playlist_create E _ _ _) as [[playlist_id|]|e].
    + unfold bind, ret.
      pose proof (for_each_events_prefix
                    (fun chunk => AmUserPlaylistAddTracks playlist_id chunk)
                    (fun chunk =>
                       am_user_playlist_add_tracks E playlist_id chunk)
                    (grouper 100 (drop 100 ids)) w) as Hprefix.
      destruct (for_each _ _ w) as [[[[]|x] w2] ev2] eqn:Hloop;
        simpl in Hprefix.
      * apply for_each_returns in Hloop as [_ ->].
        intros [= <- _ <-].
        change (?e :: ?evs) with ([e] ++ evs).
        rewrite !sent_app, sent_chunks, concat_grouper by reflexivity.
        unfold sent. simpl. rewrite !app_nil_r, take_drop. done.
      * intros [= <- _ <-]. split; [| intros [=]].
        apply sent_prefix in Hprefix.
        rewrite sent_chunks, concat_grouper in Hprefix by reflexivity.
        change (?e :: ?evs) with ([e] ++ evs). rewrite !sent_app.
        unfold sent at 1. simpl. rewrite app_nil_r.
        rewrite <- (take_drop 100 ids) at 2.
        by apply prefix_app.
    + intros [= <- _ <-]. split; [| intros [=]].
      unfold sent. simpl. rewrite !app_nil_r.
      exists (drop 100 ids). by rewrite take_drop.
    + intros [= <- _ <-]. split; [| intros [=]].
      unfold sent. simpl.
      exists (drop 100 ids). by rewrite app_nil_r, take_drop.
  - unfold bind, call, ret.
    destruct (am_user_playlist_create E _ _ _) as [reply_id|e];
      intros [= <- _ <-]; unfold sent; simpl; rewrite !app_nil_r;
      (split; [done | done || intros [=]]).
Qed.

(** X11. Chunking neither drops, repeats nor reorders a track: the ids that
    a batch submission sends to the destination, call after call, are a
    prefix of the matched ids however the submission ends, and are all of
    them, in order, when it goes through.  ([utils.grouper] is taken to cut
    consecutive chunks.) *)
Theorem X11_submission_sends_the_matched_ids (E : Env) (uid title : string)
    (ids : list string) (w : World) :
  (sent (spotify_submit E uid title ids w).2 `prefix_of` ids /\
   forall playlist_url w' evs,
     spotify_submit E uid title ids w = (Returns playlist_url, w', evs) ->
     sent evs = ids) /\
  (sent (applemusic_submit E title ids w).2 `prefix_of` ids /\
   forall w' evs,
     applemusic_submit E title ids w = (Returns tt, w', evs) ->
     sent evs = ids).
Proof.
  repeat split.
  - destruct (spotify_submit E uid title ids w) as [[r w'] evs] eqn:Hrun.
    by apply spotify_submit_sent in Hrun as [? _].
  - intros playlist_url w' evs Hrun.
    apply spotify_submit_sent in Hrun as [_ Hall]. by eapply Hall.
  - destruct (applemusic_submit E title ids w) as [[r w'] evs] eqn:Hrun.
    by apply applemusic_submit_sent in Hrun as [? _].
  - intros w' evs Hrun.
    apply applemusic_submit_sent in Hrun as [_ Hall]. by apply Hall.
Qed.

Lemma X11_submission_witness :
  sent (applemusic_submit example_env "Mix" (replicate 150 "x")
          fresh_world).2 = replicate 150 "x" /\
  sent (spotify_submit example_env "me" "Mix" (replicate 150 "x")
          fresh_world).2 = replicate 150 "x".
Proof.
  destruct (X11_submission_sends_the_matched_ids example_env "me" "Mix"
              (replicate 150 "x") fresh_world)
    as [[_ Hspotify] [_ Happlemusic]].
  split.
  - eapply Happlemusic. vm_compute. reflexivity.
  - eapply (Hspotify example_playlist_url). vm_compute. reflexivity.
Defined.

(** *** A creation answer without a playlist id *)

(** X13. When more than 100 ids were matched and the answer of Apple Music
    to the creation call has no playlist id, the task raises [KeyError] right
    after that call: the first 100 tracks are in the new playlist, the
    others are never sent, nothing is retried, written or counted.  With 100
    ids or fewer the id is not looked up and such an answer is harmless. *)
Theorem X13_creation_answer_without_id (E : Env) (url token : string)
    (data : PlaylistData) (w : World) :
  let ids := track_ids (applemusic_locals E data) in
  let title := title_or_untitled data in
  SpotifyParser_extract_data E (strip_qs E url) = Ok data ->
  get_applemusic_client E = Ok tt ->
  (100 < length ids ->
   am_user_playlist_create E title description (take 100 ids) = Ok None ->
   generate_applemusic_playlist E url token w
   = (Raises (Exn KeyError), w,
      applemusic_prefix E url data ++
      [AmUserPlaylistCreate title description (take 100 ids)])) /\
  (length ids <= 100 ->
   am_user_playlist_create E title description ids = Ok None ->
   applemusic_submit E title ids w
   = (Returns tt, w, [AmUserPlaylistCreate title description ids])).
Proof.
  intros ids title Hdata Hclient. split.
  - intros Hlong Hcreate.
    assert (Hsubmit : applemusic_submit E title ids w
                      = (Raises (Exn KeyError), w,
                         [AmUserPlaylistCreate title description
                            (take 100 ids)])).
    { unfold applemusic_submit. cbv zeta.
      rewrite (proj2 (Nat.ltb_lt _ _) Hlong).
      unfold bind, call, raise. by rewrite Hcreate. }
    rewrite (generate_applemusic_playlist_run _ _ _ _ _ Hdata Hclient).
    rewrite (applemusic_finish_on_other _ _ _ _ _ _ _ _ Hsubmit)
      by discriminate.
    unfold applemusic_prefix. by rewrite <- !app_assoc.
  - intros Hshort Hcreate. unfold applemusic_submit. cbv zeta.
    rewrite (proj2 (Nat.ltb_ge _ _) Hshort).
    unfold bind, call, ret. by rewrite Hcreate.
Qed.

Lemma X13_creation_answer_witness :
  (generate_applemusic_playlist noid_env example_url "token" fresh_world).1
  = (Raises (Exn KeyError), fresh_world) /\
  List.filter is_append
    (generate_applemusic_playlist noid_env example_url "token"
       fresh_world).2 = [].
Proof.
  destruct (X13_creation_answer_without_id noid_env example_url "token"
              crowd_data fresh_world eq_refl eq_refl) as [Hlong _].
  rewrite Hlong.
  - split; reflexivity.
  - vm_compute. lia.
  - reflexivity.
Defined.

(** *** Titles, log rows and unreadable playlists *)

(** X14. Towards Spotify there is no fallback title: every creation call
    of [generate_spotify_playlist] is made for the current user and carries
    the parsed title as it is, the empty title included, with the fixed
    description. *)
Theorem X14_spotify_title_is_passed_on (E : Env) (url : string) (w : World) :
  Forall (plain_creation E url) (generate_spotify_playlist E url w).2.
Proof.
  assert (Hconversion :
    emits (plain_creation E url) (spotify_conversion E (strip_qs E url))).
  { unfold spotify_conversion. cbv zeta.
    apply emits_bind; [by apply emits_call | intros _].
    apply emits_bind_call; [exact I | intros uid Huser].
    apply emits_bind_call; [exact I | intros data Hdata].
    apply emits_bind; [by apply emits_spotify_loop | intros l].
    apply emits_spotify_finish; try done.
    split; [assumption |]. split; [reflexivity | by exists data]. }
  assert (Hemits : emits (plain_creation E url)
                     (generate_spotify_playlist E url)).
  { unfold generate_spotify_playlist. through; try exact I; apply Hconversion. }
  apply Hemits.
Qed.

Lemma calls_none {A} (p : Event -> bool) (m : M A) :
  emits (fun e => p e = false) m -> calls_at_most p 0 m.
Proof. intros Hm w. by rewrite (filter_none _ _ (Hm w)). Qed.

Lemma calls_bind {A B} (p : Event -> bool) (m : M A) (f : A -> M B) a b :
  calls_at_most p a m -> (forall x, calls_at_most p b (f x)) ->
  calls_at_most p (a + b) (bind m f).
Proof.
  intros Hm Hf w. unfold bind. specialize (Hm w).
  destruct (m w) as [[[x|r] w1] ev1]; simpl in *; [| lia].
  specialize (Hf x w1). destruct (f x w1) as [[r2 w2] ev2]; simpl in *.
  rewrite List.filter_app, length_app. lia.
Qed.

Lemma calls_call {A} (p : Event -> bool) ev (r : reply A) :
  calls_at_most p 1 (call ev r).
Proof. intros w. destruct r; simpl; destruct (p ev); simpl; lia. Qed.

Lemma rows_spotify_finish E url uid data l :
  calls_at_most is_playlist_row 1 (spotify_finish E url uid data l).
Proof.
  unfold spotify_finish. cbv zeta.
  apply (calls_bind _ _ _ 0 1);
    [apply calls_none, emits_spotify_submit; done | intros playlist_url].
  apply (calls_bind _ _ _ 1 0); [apply calls_call | intros _].
  apply calls_none. through; try reflexivity. by apply emits_save_if_any.
Qed.

Lemma rows_generate_spotify_playlist E url :
  calls_at_most is_playlist_row 1 (generate_spotify_playlist E url).
Proof.
  assert (Hconversion : forall key,
    calls_at_most is_playlist_row 1 (spotify_conversion E key)).
  { intros key. unfold spotify_conversion. cbv zeta.
    apply (calls_bind _ _ _ 0 1);
      [apply calls_none; by apply emits_call | intros _].
    apply (calls_bind _ _ _ 0 1);
      [apply calls_none; by apply emits_call | intros uid].
    apply (calls_bind _ _ _ 0 1);
      [apply calls_none; by apply emits_call | intros data].
    apply (calls_bind _ _ _ 0 1);
      [apply calls_none; by apply emits_spotify_loop | intros l].
    apply rows_spotify_finish. }
  unfold generate_spotify_playlist. cbv zeta.
  apply (calls_bind _ _ _ 0 1);
    [apply calls_none; by apply emits_logger_info | intros _].
  destruct (negb (DEBUG E)); [| apply Hconversion].
  apply (calls_bind _ _ _ 0 1);
    [apply calls_none; by apply emits_cache_contains | intros hit].
  destruct hit; [| apply Hconversion].
  intros w. simpl. lia.
Qed.

(** X15. Only conversions towards Spotify are logged:
    [generate_applemusic_playlist] never writes a row of created playlists,
    and [generate_spotify_playlist] writes one at most, none on a cache
    hit. *)
Theorem X15_playlist_rows (E : Env) (url token u : string) (w : World) :
  List.filter is_playlist_row (generate_applemusic_playlist E url token w).2
  = [] /\
  length (List.filter is_playlist_row (generate_spotify_playlist E url w).2)
  <= 1 /\
  (DEBUG E = false -> cache_live w (strip_qs E url) = Some u ->
   List.filter is_playlist_row (generate_spotify_playlist E url w).2 = []).
Proof.
  split; [| split].
  - apply filter_none.
    assert (Hemits : emits (fun e => is_playlist_row e = false)
                       (generate_applemusic_playlist E url token)).
    { unfold generate_applemusic_playlist. through; try reflexivity.
      - by apply emits_applemusic_loop.
      - by apply emits_applemusic_finish. }
    apply Hemits.
  - apply rows_generate_spotify_playlist.
  - intros Hdebug Hlive. by rewrite (spotify_cached_run _ _ _ _ Hdebug Hlive).
Qed.

Lemma X15_playlist_rows_witness :
  List.filter is_playlist_row
    (generate_spotify_playlist example_env example_url cached_world).2 = [].
Proof.
  destruct (X15_playlist_rows example_env example_url "token"
              example_playlist_url cached_world) as (_ & _ & Hhit).
  apply Hhit; reflexivity.
Defined.

Lemma untitled_playlist_example :
  List.filter is_creation
    (generate_spotify_playlist untitled_env example_url fresh_world).2
  = [SpUserPlaylistCreate "me" "" description] /\
  List.filter is_creation
    (generate_applemusic_playlist untitled_env example_url "token"
       fresh_world).2
  = [AmUserPlaylistCreate "Untitled" description ["a1"]].
Proof. split; reflexivity. Qed.

(** X16. A playlist the parser cannot read costs no call to the
    destination: the parser's exception leaves either task as it is, before
    any search, progress report or playlist creation, and the world is
    unchanged.  [generate_applemusic_playlist] has not even asked for its
    client by then. *)
Theorem X16_unreadable_playlist (E : Env) (url token uid : string)
    (w : World) (e : exn) :
  (cache_miss E url w ->
   get_spotify_client E = Ok tt ->
   sp_current_user E = Ok uid ->
   AppleMusicParser_extract_data E (strip_qs E url) = Err e ->
   generate_spotify_playlist E url w
   = (Raises (Exn e), w,
      LoggerInfo (GeneratingSpotify (strip_qs E url)) ::
      (if DEBUG E then [] else [CacheContains (strip_qs E url)]) ++
      [GetSpotifyClient; SpCurrentUser; AppleMusicParse (strip_qs E url)])) /\
  (SpotifyParser_extract_data E (strip_qs E url) = Err e ->
   generate_applemusic_playlist E url token w
   = (Raises (Exn e), w,
      [LoggerInfo (GeneratingAppleMusic (strip_qs E url));
       SpotifyParse (strip_qs E url)])).
Proof.
  split.
  - intros Hmiss Hclient Huser Hdata.
    rewrite (generate_spotify_playlist_miss _ _ _ Hmiss).
    unfold spotify_conversion, bind, call.
    by rewrite Hclient, Huser, Hdata.
  - intros Hdata. unfold generate_applemusic_playlist, bind, logger_info, call.
    by rewrite Hdata.
Qed.

Lemma X16_unreadable_playlist_witness :
  (generate_spotify_playlist unreadable_env example_url fresh_world).1
  = (Raises (Exn (Exception "no such playlist")), fresh_world) /\
  (generate_applemusic_playlist unreadable_env example_url "token"
     fresh_world).2
  = [LoggerInfo (GeneratingAppleMusic (cut_query example_url));
     SpotifyParse (cut_query example_url)].
Proof.
  destruct (X16_unreadable_playlist unreadable_env example_url "token" "me"
              fresh_world (Exception "no such playlist"))
    as [Hspotify Happlemusic].
  split.
  - rewrite Hspotify; [reflexivity | by right | reflexivity..].
  - rewrite Happlemusic; reflexivity.
Defined.
